(** * Projection layer and residual recurrent cell

    A shallow embedding of the two notebooks of the repository,
    [Code/Projection_Layer.ipynb] (classes [ArgProj], [Output],
    [DistributionOutput]) and [Code/Residual_Connection.ipynb] (class
    [ResidualCell]), with the properties of the specification proved
    about it. *)

From stdpp Require Import base list strings.
From Stdlib Require Import ZArith Lia.

Set Default Proof Using "Type".

(** ** Python results

    A call either returns a value or raises.  Only the exceptions the
    two notebooks can meet are listed. *)

Inductive exn :=
  | NotImplementedError
  | AttributeError
  | TypeError
  | ShapeError.

Inductive result (A : Type) :=
  | Ok (a : A)
  | Raise (e : exn).
Arguments Ok {A} a.
Arguments Raise {A} e.

Global Instance result_ret : MRet result := λ A a, Ok a.
Global Instance result_bind : MBind result := λ A B f r,
  match r with Ok a => f a | Raise e => Raise e end.
Global Instance result_fmap : FMap result := λ A B f r,
  match r with Ok a => Ok (f a) | Raise e => Raise e end.

Definition raises {A} (r : result A) : Prop := ∃ e, r = Raise e.

(** A list comprehension whose body can raise: the first exception
    ends it. *)
Fixpoint traverse {A B} (f : A → result B) (l : list A) : result (list B) :=
  match l with
  | [] => Ok []
  | x :: l' => y ← f x; ys ← traverse f l'; Ok (y :: ys)
  end.

(** ** Tensors

    The element arithmetic of the tensor engine is a parameter: a type
    with a zero, a one, an addition and a multiplication. *)

Class Elt (elt : Type) := {
  zero : elt;
  one : elt;
  add : elt → elt → elt;
  mul : elt → elt → elt;
}.

Global Instance Z_elt : Elt Z :=
  {| zero := 0%Z; one := 1%Z; add := Z.add; mul := Z.mul |}.

(** The operator namespace [F] handed to every [hybrid_forward]. *)
Inductive engine := ndarray.

Inductive DType := float16 | float32 | float64.

(** A tensor is kept as the nested list of its entries: [vec] has
    shape (C,), [mat] shape (N, C), [ten3] shape (d0, d1, C). *)
Definition vec (elt : Type) := list elt.
Definition mat (elt : Type) := list (vec elt).
Definition ten3 (elt : Type) := list (mat elt).

Section Tensors.
Context `{Elt elt}.
Local Abbreviation vec := (vec elt).
Local Abbreviation mat := (mat elt).
Local Abbreviation ten3 := (ten3 elt).

Definition has_shape2 (B W : nat) (m : mat) : Prop :=
  length m = B ∧ Forall (λ r : vec, length r = W) m.

Definition has_shape3 (d0 d1 d2 : nat) (t : ten3) : Prop :=
  length t = d0 ∧ Forall (has_shape2 d1 d2) t.

Definition same_len {A B} (a : list A) (b : list B) : bool :=
  Nat.eqb (length a) (length b).

Definition same_shape2 (a b : mat) : bool :=
  same_len a b && forallb (λ p : vec * vec, same_len p.1 p.2) (zip a b).

Definition same_shape3 (a b : ten3) : bool :=
  same_len a b && forallb (λ p : mat * mat, same_shape2 p.1 p.2) (zip a b).

Definition zeros_like (v : vec) : vec := replicate (length v) zero.

Definition two : elt := add one one.

(** [k * x] for a Python number [k] and a tensor [x]. *)
Definition scalar_mul (k : elt) (x : mat) : mat := map (map (mul k)) x.

(** Modelled from the spec: [F.elemwise_add], the elementwise addition
    of the tensor engine; both operands must have identical shape, and
    a mismatch is signalled by the engine. *)
Definition elemwise_add2 (a b : mat) : result mat :=
  if same_shape2 a b then Ok (zip_with (zip_with add) a b)
  else Raise ShapeError.

Definition elemwise_add3 (a b : ten3) : result ten3 :=
  if same_shape3 a b then Ok (zip_with (zip_with (zip_with add)) a b)
  else Raise ShapeError.
End Tensors.

(** ** Projection_Layer.ipynb *)

Module ArgProj.
Section ArgProj.
Context `{Elt elt}.
Local Abbreviation vec := (vec elt).
Local Abbreviation mat := (mat elt).

(** Modelled from the spec: [gluon.nn.Dense], an affine transform with
    its own learnable weight and bias that acts on the last axis and,
    with [flatten=False], keeps the leading ones.  The parameters are
    indexed families, since the input width is only known at the
    first call. *)
Record Dense := {
  units : nat;
  flatten : bool;
  dense_dtype : DType;
  dense_prefix : string;
  weight : nat → nat → elt;
  bias : nat → elt;
}.

Definition dot (r : vec) (w : nat → elt) : elt :=
  foldr add zero (imap (λ k xk, mul xk (w k)) r).

Definition Dense_call (d : Dense) (x : mat) : mat :=
  map (λ r, map (λ j, add (dot r (weight d j)) (bias d j)) (seq 0 (units d))) x.

(** The values an initializer gives to the parameters registered
    under a prefix. *)
Definition initializer := string → (nat → nat → elt) * (nat → elt).

Record t (R : Type) := {
  args_dim : list (string * nat);
  dtype : DType;
  proj : list Dense;
  domain_map : list mat → result R;
}.
Arguments args_dim {R}.
Arguments dtype {R}.
Arguments proj {R}.
Arguments domain_map {R}.

(** [str(prefix)] inside the f-string. *)
Definition str (prefix : option string) : string :=
  match prefix with Some p => p | None => "None" end.

Definition __init__ {R} (init : initializer)
    (args_dim : list (string * nat)) (domain_map : list mat → result R)
    (dtype : DType) (prefix : option string) : t R :=
  {| args_dim := args_dim;
     dtype := dtype;
     proj :=
       map (λ '(name, dim),
              let p := str prefix +:+ "_distr_" +:+ name +:+ "_" in
              {| units := dim; flatten := false; dense_dtype := dtype;
                 dense_prefix := p;
                 weight := (init p).1; bias := (init p).2 |})
           args_dim;
     domain_map := domain_map |}.

Definition hybrid_forward {R} (self : t R) (F : engine) (x : mat) : result R :=
  let params_unbounded := map (λ proj, Dense_call proj x) (proj self) in
  domain_map self params_unbounded.

(** The identity domain map, [lambda *args: args]. *)
Definition identity_map (args : list mat) : result (list mat) := Ok args.
End ArgProj.
Arguments args_dim {elt R}.
Arguments dtype {elt R}.
Arguments proj {elt R}.
Arguments domain_map {elt R}.
End ArgProj.


(** Distribution objects.  [Instance] is an object of a concrete
    distribution class built from its constructor arguments. *)
Inductive Distribution (elt : Type) :=
  | Instance (family : string) (args : list (mat elt))
  | AffineTransformedDistribution
      (base_distribution : Distribution elt) (loc scale : option (mat elt)).
Arguments Instance {elt} family args.
Arguments AffineTransformedDistribution {elt} base_distribution loc scale.

Section Distribution.
Context `{Elt elt}.
Local Abbreviation mat := (mat elt).

(** Modelled from the spec: broadcasting, as the tensor engine does it
    along one axis.  The two sides agree on the axis, or one of them
    has a single item there, which is paired with every item of the
    other; anything else is a shape error. *)
Definition broadcast {A B C} (f : A → B → result C) (a : list A) (b : list B) :
    result (list C) :=
  if Nat.eqb (length a) (length b)
  then traverse (λ p : A * B, f p.1 p.2) (zip a b)
  else match a, b with
       | [x], _ => traverse (f x) b
       | _, [y] => traverse (λ x, f x y) a
       | _, _ => Raise ShapeError
       end.

Definition broadcast_op (op : elt → elt → elt) (a b : mat) : result mat :=
  broadcast (broadcast (λ x y, Ok (op x y))) a b.

Definition broadcast_mul : mat → mat → result mat := broadcast_op mul.
Definition broadcast_add : mat → mat → result mat := broadcast_op add.

(** Modelled from the spec: the map of [AffineTransformedDistribution],
    which is imported from [.transformed_distribution]: a draw of the
    wrapped distribution is sent to [value * scale + loc], where [loc]
    and [scale] broadcast against the value; a part that is unset is
    left out. *)
Definition affine (loc scale : option mat) (value : mat) : result mat :=
  scaled ← match scale with
           | Some s => broadcast_mul value s
           | None => Ok value
           end;
  match loc with
  | Some l => broadcast_add scaled l
  | None => Ok scaled
  end.

(** What a distribution object does to a draw of its innermost
    distribution. *)
Fixpoint transform (d : Distribution elt) (value : mat) : result mat :=
  match d with
  | Instance _ _ => Ok value
  | AffineTransformedDistribution base loc scale =>
      v ← transform base value; affine loc scale v
  end.
End Distribution.

(** Classes derived from [DistributionOutput] and their objects.  A
    member is [None] when the class leaves it as the base classes have
    it; [args_dim] and [distr_cls] are only annotated there, so reading
    them on such a class raises [AttributeError]. *)
Record class (elt : Type) := {
  args_dim : option (list (string * nat));
  distr_cls : option (list (mat elt) → result (Distribution elt));
  event_shape_def : option (list nat);
  domain_map_def : option (engine → list (mat elt) → result (list (mat elt)));
  value_in_support_def : option elt;
}.
Arguments args_dim {elt}.
Arguments distr_cls {elt}.
Arguments event_shape_def {elt}.
Arguments domain_map_def {elt}.
Arguments value_in_support_def {elt}.

Record object (elt : Type) := {
  cls : class elt;
  _dtype : DType;
}.
Arguments cls {elt}.
Arguments _dtype {elt}.

(** [DistributionOutput] itself: nothing is overridden. *)
Definition abstract_base (elt : Type) : class elt :=
  {| args_dim := None; distr_cls := None; event_shape_def := None;
     domain_map_def := None; value_in_support_def := None |}.

Definition getattr {A} (member : option A) : result A :=
  match member with Some a => Ok a | None => Raise AttributeError end.

Module Output.
Section Output.
Context `{Elt elt}.
Local Abbreviation mat := (mat elt).

Definition dtype (self : object elt) : DType := _dtype self.

Definition dtype_setter (self : object elt) (dtype : DType) : object elt :=
  {| cls := cls self; _dtype := dtype |}.

Definition domain_map (self : object elt) (F : engine) (args : list mat) :
    result (list mat) :=
  Raise NotImplementedError.
End Output.
End Output.

Module DistributionOutput.
Section DistributionOutput.
Context `{Elt elt}.
Local Abbreviation mat := (mat elt).

(** [__init__] does nothing; [_dtype] starts as the class attribute. *)
Definition __init__ (c : class elt) : object elt :=
  {| cls := c; _dtype := float32 |}.

Definition domain_map (self : object elt) (F : engine) (args : list mat) :
    result (list mat) :=
  Raise NotImplementedError.

(** The body of the [event_shape] property of the base class. *)
Definition event_shape_base (self : object elt) : result (list nat) :=
  Raise NotImplementedError.

(** Attribute lookup on an object: the member of its own class when
    the class defines one, the base class's otherwise. *)
Definition self_domain_map (self : object elt) (F : engine) (args : list mat) :
    result (list mat) :=
  match domain_map_def (cls self) with
  | Some f => f F args
  | None => domain_map self F args
  end.

Definition event_shape (self : object elt) : result (list nat) :=
  match event_shape_def (cls self) with
  | Some shape => Ok shape
  | None => event_shape_base self
  end.

Definition event_dim (self : object elt) : result nat :=
  shape ← event_shape self; Ok (length shape).

Definition value_in_support (self : object elt) : elt :=
  match value_in_support_def (cls self) with
  | Some v => v
  | None => zero
  end.

Definition distribution (self : object elt) (distr_args : list mat)
    (loc scale : option mat) : result (Distribution elt) :=
  match loc, scale with
  | None, None =>
      distr_cls ← getattr (distr_cls (cls self)); distr_cls distr_args
  | _, _ =>
      distr_cls ← getattr (distr_cls (cls self));
      distr ← distr_cls distr_args;
      Ok (AffineTransformedDistribution distr loc scale)
  end.

(** [gluon.nn.HybridLambda(f)] calls [f] with the operator namespace
    in front of its arguments. *)
Definition HybridLambda {R} (f : engine → list mat → result R) :
    list mat → result R :=
  f ndarray.

(** Inherited from [Output]. *)
Definition get_args_proj (init : ArgProj.initializer) (self : object elt)
    (prefix : option string) : result (ArgProj.t (list mat)) :=
  args_dim ← getattr (args_dim (cls self));
  Ok (ArgProj.__init__ init args_dim (HybridLambda (self_domain_map self))
        (Output.dtype self) prefix).

(** The properties of the two classes.  Only [dtype] has a setter;
    assigning to a property without one raises [AttributeError]. *)
Inductive property :=
  | prop_dtype
  | prop_event_shape
  | prop_event_dim
  | prop_value_in_support.

Definition value_type (p : property) : Type :=
  match p with
  | prop_dtype => DType
  | prop_event_shape => list nat
  | prop_event_dim => nat
  | prop_value_in_support => elt
  end.

Definition fset (p : property) : option (object elt → value_type p → object elt) :=
  match p with
  | prop_dtype => Some Output.dtype_setter
  | _ => None
  end.

Definition setattr (self : object elt) (p : property) (v : value_type p) :
    result (object elt) :=
  match fset p with
  | Some set => Ok (set self v)
  | None => Raise AttributeError
  end.
End DistributionOutput.
End DistributionOutput.


(** ** Residual_Connection.ipynb *)

(** The layout string, ['NTC'] or ['TNC']; [find_T] is
    [layout.find('T')], the axis that holds time. *)
Inductive layout := NTC | TNC.

Definition find_T (l : layout) : nat :=
  match l with NTC => 1 | TNC => 0 end.

(** A sequence is one merged tensor, with the time axis in it, or a
    Python list with one (N, C) tensor per step. *)
Inductive sequence (elt : Type) :=
  | Tensor (t : ten3 elt)
  | Steps (l : list (mat elt)).
Arguments Tensor {elt} t.
Arguments Steps {elt} l.

Section Sequences.
Context `{Elt elt}.
Local Abbreviation vec := (vec elt).
Local Abbreviation mat := (mat elt).
Local Abbreviation ten3 := (ten3 elt).
Local Abbreviation sequence := (sequence elt).

(** [isinstance(s, tensor_types)]. *)
Definition isinstance_tensor (s : sequence) : bool :=
  match s with Tensor _ => true | Steps _ => false end.

(** Iterating a sequence, as [zip] does: the items of a list, the
    slices along axis 0 of a tensor. *)
Definition iter (s : sequence) : list mat :=
  match s with Tensor t => t | Steps l => l end.

(** [F.elemwise_add] on what [unroll] holds in the merged convention. *)
Definition elemwise_add (a b : sequence) : result sequence :=
  match a, b with
  | Tensor x, Tensor y => Tensor <$> elemwise_add3 x y
  | _, _ => Raise TypeError
  end.

(** The entry of a sequence at time step [tm] for sequence [n] of the
    batch, read through the layout. *)
Definition entry (lay : layout) (s : sequence) (tm n : nat) : option vec :=
  match s with
  | Steps l => l !! tm ≫= (.!! n)
  | Tensor t =>
      match lay with
      | TNC => t !! tm ≫= (.!! n)
      | NTC => t !! n ≫= (.!! tm)
      end
  end.

(** [s] holds [T] steps of [N] sequences with [C] channels. *)
Definition seq_shape (lay : layout) (s : sequence) (T N C : nat) : Prop :=
  match s with
  | Steps l => has_shape3 T N C l
  | Tensor t =>
      match lay with
      | TNC => has_shape3 T N C t
      | NTC => has_shape3 N T C t
      end
  end.

(** Exchange of the two leading axes of a (d0, d1, ...) array. *)
Fixpoint transpose_n {A} (d1 : nat) (a : list (list A)) : list (list A) :=
  match a with
  | [] => replicate d1 []
  | r :: a' => zip_with cons r (transpose_n d1 a')
  end.

Definition uniform {A} (d : nat) (a : list (list A)) : bool :=
  forallb (λ r, Nat.eqb (length r) d) a.

(** [F.stack] of the steps along [axis]: the steps must agree on the
    batch size. *)
Definition stack (axis : nat) (l : list mat) : result ten3 :=
  let N := match l with s :: _ => length s | [] => 0 end in
  if uniform N l
  then Ok (match axis with 0 => l | _ => transpose_n N l end)
  else Raise ShapeError.

(** [F.split(t, axis=axis, num_outputs=num_outputs, squeeze_axis=1)]:
    the axis must hold [num_outputs] slices. *)
Definition split (axis num_outputs : nat) (t : ten3) : result (list mat) :=
  match axis with
  | 0 => if Nat.eqb (length t) num_outputs then Ok t else Raise ShapeError
  | _ =>
      if uniform num_outputs t then Ok (transpose_n num_outputs t)
      else Raise ShapeError
  end.

(** Bringing a sequence to the merged or the list convention. *)
Definition to_convention (axis length : nat) (s : sequence) (merge : bool) :
    result sequence :=
  match s, merge with
  | Tensor t, false => Steps <$> split axis length t
  | Steps l, true => Tensor <$> stack axis l
  | _, _ => Ok s
  end.

(** The number of sequences in the batch. *)
Definition batch_size (lay : layout) (s : sequence) : nat :=
  match s with
  | Steps l => match l with s0 :: _ => length s0 | [] => 0 end
  | Tensor t =>
      match lay with
      | NTC => length t
      | TNC => match t with s0 :: _ => length s0 | [] => 0 end
      end
  end.

(** Modelled from the spec: [_format_sequence], which [unroll] calls
    and the repository does not define.  It brings [inputs] to the
    convention asked for (one merged tensor or a list of steps) in the
    given layout and returns it with the time axis, the operator
    namespace and the batch size. *)
Definition _format_sequence (length : nat) (inputs : sequence) (lay : layout)
    (merge : bool) : result (sequence * nat * engine * nat) :=
  let axis := find_T lay in
  inputs' ← to_convention axis length inputs merge;
  Ok (inputs', axis, ndarray, batch_size lay inputs).

(** One entry under the mask: kept before the valid length [k] of its
    sequence, zero from there on. *)
Definition mask_vec (tm k : nat) (v : vec) : vec :=
  if Nat.ltb tm k then v else zeros_like v.

(** Masking by valid length of a (T, N, C) array, time leading ... *)
Definition mask_time_major (valid_length : list nat) (data : list mat) :
    result (list mat) :=
  if uniform (length valid_length) data
  then Ok (imap (λ tm step, zip_with (mask_vec tm) valid_length step) data)
  else Raise ShapeError.

(** ... and of a (N, T, C) array, batch leading. *)
Definition mask_batch_major (valid_length : list nat) (data : ten3) :
    result ten3 :=
  if Nat.eqb (length data) (length valid_length)
  then Ok (zip_with (λ k row, imap (λ tm v, mask_vec tm k v) row)
             valid_length data)
  else Raise ShapeError.

(** Modelled from the spec: [_mask_sequence_variable_length], which
    [unroll] calls and the repository does not define.  Per sequence
    and per time step, it zeroes the positions of [data] beyond the
    sequence's valid length; [valid_length] has one entry per sequence
    of the batch.  The result is in the convention [merge] asks for. *)
Definition _mask_sequence_variable_length (F : engine) (data : sequence)
    (length : nat) (valid_length : list nat) (time_axis : nat) (merge : bool) :
    result sequence :=
  masked ←
    match data with
    | Steps l => Steps <$> mask_time_major valid_length l
    | Tensor t =>
        match time_axis with
        | 0 => Tensor <$> mask_time_major valid_length t
        | _ => Tensor <$> mask_batch_major valid_length t
        end
    end;
  to_convention time_axis length masked merge.
End Sequences.

(** The objects [unroll] writes to: the [_modified] flag of the inner
    cell, and everything else the two cells keep (their counters, the
    inner cell's own fields). *)
Record heap (H : Type) := {
  base_modified : bool;
  others : H;
}.
Arguments base_modified {H}.
Arguments others {H}.

(** A computation reads and writes the heap and returns or raises; the
    heap at the point of an exception stays as it is. *)
Definition M (H A : Type) := heap H → heap H * result A.

Global Instance M_ret {H} : MRet (M H) := λ A a h, (h, Ok a).
Global Instance M_bind {H} : MBind (M H) := λ A B f m h,
  match m h with
  | (h', Ok a) => f a h'
  | (h', Raise e) => (h', Raise e)
  end.

Definition lift {H A} (r : result A) : M H A := λ h, (h, r).

(** [self.base_cell._modified = b]. *)
Definition set_base_modified {H} (b : bool) : M H unit :=
  λ h, ({| base_modified := b; others := others h |}, Ok ()).

Module ResidualCell.
Section ResidualCell.
Context `{Elt elt}.
Local Abbreviation mat := (mat elt).
Local Abbreviation sequence := (sequence elt).

(** The inner cell and the inherited [reset] are not part of the
    repository: the wrapper is embedded over any of them.  [St] is the
    recurrent state, which the wrapper never looks into. *)
Context {Store St : Type}.
Variable reset : heap Store → heap Store.
Variable base_cell : mat → St → M Store (mat * St).
Variable base_cell_unroll :
  nat → sequence → option St → layout → option bool → option (list nat) →
  M Store (sequence * St).

(** The [name] given to [F.elemwise_add] only labels the operator; it
    is left out. *)
Definition hybrid_forward (F : engine) (inputs : mat) (states : St) :
    M Store (mat * St) :=
  '(output, states) ← base_cell inputs states;
  output ← lift (elemwise_add2 output inputs);
  mret (output, states).

Definition unroll (length : nat) (inputs : sequence) (begin_state : option St)
    (lay : layout) (merge_outputs : option bool)
    (valid_length : option (list nat)) : M Store (sequence * St) :=
  (λ h, (reset h, Ok ())) ;;
  set_base_modified false ;;
  '(outputs, states) ←
    base_cell_unroll length inputs begin_state lay merge_outputs valid_length;
  set_base_modified true ;;
  let merge_outputs :=
    match merge_outputs with
    | None => isinstance_tensor outputs
    | Some m => m
    end in
  '(inputs, axis, F, _) ← lift (_format_sequence length inputs lay merge_outputs);
  inputs ←
    match valid_length with
    | Some valid_length =>
        lift (_mask_sequence_variable_length F inputs length valid_length axis
                merge_outputs)
    | None => mret inputs
    end;
  outputs ←
    (if merge_outputs
     then lift (elemwise_add outputs inputs)
     else lift (Steps <$> traverse (λ '(i, j), elemwise_add2 i j)
                            (zip (iter outputs) (iter inputs))));
  mret (outputs, states).

(** The steps of [unroll] after the inner call, named one by one for
    the statements below: the flag it settles on, the inputs as they
    reach the addition, and the addition. *)
Definition merge_flag (merge_outputs : option bool) (outputs : sequence) : bool :=
  match merge_outputs with
  | None => isinstance_tensor outputs
  | Some m => m
  end.

Definition normalized_inputs (length : nat) (inputs : sequence) (lay : layout)
    (merge : bool) (valid_length : option (list nat)) : result sequence :=
  '(inputs, axis, F, _) ← _format_sequence length inputs lay merge;
  match valid_length with
  | Some valid_length =>
      _mask_sequence_variable_length F inputs length valid_length axis merge
  | None => Ok inputs
  end.

Definition combine (merge : bool) (outputs inputs : sequence) : result sequence :=
  if merge then elemwise_add outputs inputs
  else Steps <$> traverse (λ '(i, j), elemwise_add2 i j)
                   (zip (iter outputs) (iter inputs)).

(** The heap the inner [unroll] is started on. *)
Definition inner_heap (h : heap Store) : heap Store :=
  {| base_modified := false; others := others (reset h) |}.

(** The heap once the flag is set back after the inner [unroll] left
    [h2]. *)
Definition restored_heap (h2 : heap Store) : heap Store :=
  {| base_modified := true; others := others h2 |}.
End ResidualCell.
End ResidualCell.


(** ** Concrete instances

    Small objects over the integers on which the statements below are
    exercised. *)

Module Examples.
(** An initializer: every weight 1, every bias 0. *)
Definition const_init : ArgProj.initializer (elt := Z) :=
  λ _, (λ _ _, 1%Z, λ _, 0%Z).

(** A concrete output class, with a two-axis event. *)
Definition gaussian_like : class Z :=
  {| args_dim := Some [("mu", 1); ("sigma", 1)];
     distr_cls := Some (λ args, Ok (Instance "Gaussian" args));
     event_shape_def := Some [2; 3];
     domain_map_def := Some (λ _ args, Ok args);
     value_in_support_def := None |}.

Definition inner_unroll :=
  nat → sequence Z → option unit → layout → option bool → option (list nat) →
  M unit (sequence Z * unit).

(** A heap as [ModifierCell.__init__] leaves it: the inner cell is
    marked as modified. *)
Definition h_on : heap unit := {| base_modified := true; others := () |}.
Definition h_off : heap unit := {| base_modified := false; others := () |}.

(** The inner cell that hands back its input and its state. *)
Definition echo_cell : mat Z → unit → M unit (mat Z * unit) :=
  λ x s, mret (x, s).

(** An inner [unroll] that hands back the inputs as its outputs. *)
Definition echo_unroll : inner_unroll :=
  λ _ inputs _ _ _ _, mret (inputs, ()).

(** An inner [unroll] that raises. *)
Definition failing_unroll : inner_unroll :=
  λ _ _ _ _ _ _, lift (Raise TypeError).


(** An inner [unroll] that returns a single step whatever the length
    asked for. *)
Definition one_step_unroll : inner_unroll :=
  λ _ _ _ _ _ _, mret (Steps [[[10]; [20]]]%Z, ()).

(** Two sequences of three steps with two channels, batch first. *)
Definition batch_NTC : sequence Z :=
  Tensor [[[1; 2]; [3; 4]; [5; 6]]; [[7; 8]; [9; 10]; [11; 12]]]%Z.

(** Two steps of two sequences with one channel, as a list. *)
Definition two_steps : sequence Z := Steps [[[1]; [2]]; [[3]; [4]]]%Z.

(** An inner [unroll] whose output is 1 everywhere, three steps of one
    sequence with one channel, merged. *)
Definition ones_unroll : inner_unroll :=
  λ _ _ _ _ _ _, mret (Tensor [[[1]]; [[1]]; [[1]]]%Z, ()).
End Examples.

(** ** Stepping a cell

    The loop by which a recurrent cell is run over a list of steps: the
    cell is called on each step in turn and its state is threaded from
    one call to the next.  It is what the two entry points of
    [ResidualCell], the single step and [unroll], are compared on. *)

Section Stepping.
Context {elt Store St : Type}.

End Stepping.

Module MoreExamples.
(** A class that gives its argument widths and nothing else. *)
Definition widths_only : class Z :=
  {| args_dim := Some [("mu", 1); ("sigma", 1)];
     distr_cls := None;
     event_shape_def := None;
     domain_map_def := None;
     value_in_support_def := None |}.

(** A class whose distribution constructor refuses its arguments. *)
Definition refusing : class Z :=
  {| args_dim := Some [("mu", 1)];
     distr_cls := Some (λ _, Raise TypeError);
     event_shape_def := Some [];
     domain_map_def := Some (λ _ args, Ok args);
     value_in_support_def := None |}.

(** An inner cell that doubles its input and counts its calls in the
    state. *)
Definition doubling_cell : mat Z → nat → M unit (mat Z * nat) :=
  λ x s, mret (scalar_mul 2%Z x, S s).


(** An inner [unroll] that answers with a list of three steps, 1
    everywhere, for two sequences with two channels. *)
Definition ones_list_unroll :
    nat → sequence Z → option unit → layout → option bool →
    option (list nat) → M unit (sequence Z * unit) :=
  λ _ _ _ _ _ _,
    mret (Steps [[[1; 1]; [1; 1]]; [[1; 1]; [1; 1]]; [[1; 1]; [1; 1]]]%Z, ()).

End MoreExamples.

(** * Properties *)

(** ** Lists and shapes *)

Section ListFacts.
Context {A : Type}.

Lemma same_len_true {B} (a : list A) (b : list B) :
  same_len a b = true ↔ length a = length b.
Proof. unfold same_len. apply Nat.eqb_eq. Qed.

Lemma uniform_true (d : nat) (a : list (list A)) :
  uniform d a = true ↔ Forall (λ r, length r = d) a.
Proof.
  unfold uniform. rewrite forallb_forall, Forall_forall.
  split; intros Ha r Hr.
  - apply Nat.eqb_eq, Ha. by apply list_elem_of_In.
  - apply Nat.eqb_eq, Ha. by apply list_elem_of_In.
Qed.

Lemma traverse_Ok {B} (f : A → result B) (g : A → B) (l : list A) :
  Forall (λ x, f x = Ok (g x)) l → traverse f l = Ok (map g l).
Proof.
  induction 1 as [|x l Hx _ IH]; [done|].
  cbn. rewrite Hx. cbn. rewrite IH. done.
Qed.
End ListFacts.

(** ** The projection layer *)

Section ArgProjFacts.
Context `{Elt elt}.
Local Abbreviation mat := (mat elt).

Lemma Dense_call_shape (d : ArgProj.Dense) (x : mat) :
  has_shape2 (length x) (ArgProj.units d) (ArgProj.Dense_call d x).
Proof.
  unfold has_shape2, ArgProj.Dense_call. split.
  - by rewrite length_map.
  - apply Forall_forall. intros r Hr.
    apply list_elem_of_fmap in Hr as (r0 & -> & _).
    by rewrite length_map, length_seq.
Qed.

Lemma init_proj_lookup {R} (init : ArgProj.initializer) args_dim
    (dm : list mat → result R) dt prefix i name w :
  args_dim !! i = Some (name, w) →
  ∃ d, ArgProj.proj (ArgProj.__init__ init args_dim dm dt prefix) !! i = Some d
    ∧ ArgProj.units d = w
    ∧ ArgProj.flatten d = false
    ∧ ArgProj.dense_prefix d = ArgProj.str prefix +:+ "_distr_" +:+ name +:+ "_"
    ∧ ArgProj.weight d = (init (ArgProj.dense_prefix d)).1
    ∧ ArgProj.bias d = (init (ArgProj.dense_prefix d)).2.
Proof.
  intros Hi. cbn. eexists.
  split; [ by rewrite list_lookup_fmap, Hi | by cbn ].
Qed.

(** C3.  An [ArgProj] built from the widths w_1..w_n with the identity
    domain map sends an input of shape (B, H) to n tensors, the i-th of
    shape (B, w_i): the i-th is the affine transform of the i-th named
    argument, which has its own weight and bias (those registered under
    its own prefix) and does not flatten; whatever the domain map is,
    its result on these n tensors is returned as it is. *)
Theorem ArgProj_identity_shapes (init : ArgProj.initializer)
    (args_dim : list (string * nat)) (dt : DType) (prefix : option string)
    (F : engine) (x : mat) (B Hd : nat) :
  has_shape2 B Hd x →
  let self := ArgProj.__init__ init args_dim ArgProj.identity_map dt prefix in
  (∀ R (dm : list mat → result R),
     ArgProj.hybrid_forward (ArgProj.__init__ init args_dim dm dt prefix) F x
     = dm (map (λ d, ArgProj.Dense_call d x) (ArgProj.proj self)))
  ∧ ∃ outs,
      ArgProj.hybrid_forward self F x = Ok outs
      ∧ length outs = length args_dim
      ∧ ∀ i name w, args_dim !! i = Some (name, w) →
          ∃ d o, ArgProj.proj self !! i = Some d
            ∧ ArgProj.units d = w
            ∧ ArgProj.flatten d = false
            ∧ ArgProj.weight d
              = (init (ArgProj.str prefix +:+ "_distr_" +:+ name +:+ "_")).1
            ∧ ArgProj.bias d
              = (init (ArgProj.str prefix +:+ "_distr_" +:+ name +:+ "_")).2
            ∧ outs !! i = Some o
            ∧ o = ArgProj.Dense_call d x
            ∧ has_shape2 B w o.
Proof.
  intros [HB _] self. subst self. split; [done|].
  unfold ArgProj.hybrid_forward, ArgProj.identity_map.
  eexists. split; [reflexivity|]. split.
  - cbn. by rewrite !length_map.
  - intros i name w Hi.
    destruct (init_proj_lookup init args_dim ArgProj.identity_map dt prefix
                i name w Hi) as (d & Hd1 & Hu & Hf & Hp & Hw & Hb).
    exists d, (ArgProj.Dense_call d x).
    rewrite Hp in Hw, Hb.
    repeat split; try done.
    + rewrite list_lookup_fmap.
      change (ArgProj.proj (ArgProj.__init__ init args_dim _ dt prefix))
        with (ArgProj.proj
                (ArgProj.__init__ init args_dim ArgProj.identity_map dt prefix)).
      by rewrite Hd1.
    + rewrite <- HB. apply Dense_call_shape.
    + rewrite <- Hu. apply Dense_call_shape.
Qed.
End ArgProjFacts.

Lemma ArgProj_identity_shapes_witness :
  has_shape2 1 3 [[1; 2; 3]%Z]
  ∧ ∃ outs,
      ArgProj.hybrid_forward
        (ArgProj.__init__ Examples.const_init [("mu", 1); ("sigma", 2)]
           ArgProj.identity_map float32 None) ndarray [[1; 2; 3]%Z] = Ok outs
      ∧ length outs = 2.
Proof.
  assert (Hs : has_shape2 1 3 [[1; 2; 3]%Z]).
  { split; [reflexivity | repeat constructor]. }
  split; [exact Hs|].
  destruct (ArgProj_identity_shapes Examples.const_init [("mu", 1); ("sigma", 2)]
              float32 None ndarray [[1; 2; 3]%Z] 1 3 Hs)
    as (_ & outs & Ho & Hl & _).
  exists outs. split; [exact Ho | exact Hl].
Defined.

(** ** The distribution output *)

Section DistributionOutputFacts.
Context `{Elt elt}.
Local Abbreviation mat := (mat elt).

Lemma broadcast_single {A B C} (f : A → B → result C) (g : A → C)
    (a : list A) (y : B) :
  (∀ x, f x y = Ok (g x)) → broadcast f a [y] = Ok (map g a).
Proof.
  intros Hf. unfold broadcast.
  assert (Htr : traverse (λ x, f x y) a = Ok (map g a)).
  { apply traverse_Ok. apply Forall_forall. intros x _. apply Hf. }
  destruct a as [|x [|x' a]]; [done| |exact Htr].
  cbn. by rewrite Hf.
Qed.

Lemma broadcast_aligned {A B C} (f : A → B → result C) (g : A → B → C)
    (a : list A) (b : list B) :
  length a = length b →
  Forall (λ p : A * B, f p.1 p.2 = Ok (g p.1 p.2)) (zip a b) →
  broadcast f a b = Ok (zip_with g a b).
Proof.
  intros Hlen Hf. unfold broadcast. rewrite Hlen, Nat.eqb_refl.
  rewrite (zip_with_zip g a b).
  rewrite (traverse_Ok _ (uncurry g)); [done|].
  eapply Forall_impl; [exact Hf|]. by intros [x y].
Qed.

Lemma broadcast_op_single (op : elt → elt → elt) (a : mat) (y : elt) :
  broadcast_op op a [[y]] = Ok (map (map (λ x, op x y)) a).
Proof.
  unfold broadcast_op. apply broadcast_single.
  intros r. by apply broadcast_single.
Qed.

Lemma broadcast_op_aligned (op : elt → elt → elt) (a b : mat) :
  same_shape2 a b = true →
  broadcast_op op a b = Ok (zip_with (zip_with op) a b).
Proof.
  unfold same_shape2. rewrite andb_true_iff, same_len_true, forallb_forall.
  intros [Hlen Hrows]. unfold broadcast_op.
  apply broadcast_aligned; [done|].
  apply Forall_forall. intros [r s] Hin. cbn.
  apply broadcast_aligned.
  - apply same_len_true, (Hrows (r, s)). by apply list_elem_of_In.
  - apply Forall_forall. by intros [x y] _.
Qed.

(** C2.  With [loc] and [scale] both unset, [distribution] returns the
    object the distribution class builds from [distr_args], with
    nothing wrapped around it; as soon as one of the two is given, it
    returns that object inside an [AffineTransformedDistribution]
    holding [loc] and [scale].  The wrapper sends a value to
    [value * scale + loc], with [loc] and [scale] broadcast against
    the value: entry by entry when the shapes agree, the one entry for
    all when [loc] and [scale] hold a single entry; with [scale] alone
    it is [value * scale], with [loc] alone [value + loc]. *)
Theorem distribution_raw_or_affine (self : object elt) (distr_args : list mat) :
  DistributionOutput.distribution self distr_args None None
  = (c ← getattr (distr_cls (cls self)); c distr_args)
  ∧ (∀ l scale,
       DistributionOutput.distribution self distr_args (Some l) scale
       = (c ← getattr (distr_cls (cls self)); d ← c distr_args;
          Ok (AffineTransformedDistribution d (Some l) scale)))
  ∧ (∀ loc s,
       DistributionOutput.distribution self distr_args loc (Some s)
       = (c ← getattr (distr_cls (cls self)); d ← c distr_args;
          Ok (AffineTransformedDistribution d loc (Some s))))
  ∧ (∀ d l s value,
       transform (AffineTransformedDistribution d (Some l) (Some s)) value
       = (v ← transform d value; vs ← broadcast_mul v s; broadcast_add vs l))
  ∧ (∀ d s value,
       transform (AffineTransformedDistribution d None (Some s)) value
       = (v ← transform d value; broadcast_mul v s))
  ∧ (∀ d l value,
       transform (AffineTransformedDistribution d (Some l) None) value
       = (v ← transform d value; broadcast_add v l))
  ∧ (∀ family args value, transform (Instance family args) value = Ok value)
  ∧ (∀ family args (l s : elt) value,
       transform
         (AffineTransformedDistribution (Instance family args)
            (Some [[l]]) (Some [[s]])) value
       = Ok (map (map (λ x, add (mul x s) l)) value))
  ∧ (∀ family args (s value : mat),
       same_shape2 value s = true →
       transform
         (AffineTransformedDistribution (Instance family args) None (Some s))
         value
       = Ok (zip_with (zip_with mul) value s))
  ∧ (∀ family args (l value : mat),
       same_shape2 value l = true →
       transform
         (AffineTransformedDistribution (Instance family args) (Some l) None)
         value
       = Ok (zip_with (zip_with add) value l)).
Proof.
  split; [done|].
  split; [by intros l [s|]|].
  split; [by intros [l|] s|].
  split; [done|].
  split.
  { intros d s value. cbn. destruct (transform d value) as [v|e]; [|done].
    cbn. by destruct (broadcast_mul v s). }
  split; [done|].
  split; [done|].
  split.
  { intros family args l s value. cbn.
    unfold broadcast_mul, broadcast_add. rewrite broadcast_op_single. cbn.
    rewrite broadcast_op_single. f_equal.
    rewrite map_map. apply map_ext. intros r. by rewrite map_map. }
  split.
  { intros family args s value Hs. cbn.
    unfold broadcast_mul. by rewrite (broadcast_op_aligned mul value s Hs). }
  intros family args l value Hl. cbn.
  unfold broadcast_add. by rewrite (broadcast_op_aligned add value l Hl).
Qed.

(** C7.  For an object whose class defines [event_shape], [event_dim]
    is the length of that tuple.  It is computed from [event_shape] on
    every read: it has no setter, so assigning to it raises, and
    setting the one property that has a setter leaves it as it was. *)
Theorem event_dim_is_len_event_shape (self : object elt) (shape : list nat) :
  DistributionOutput.event_shape self = Ok shape →
  DistributionOutput.event_dim self = Ok (length shape)
  ∧ DistributionOutput.event_dim self
    = length <$> DistributionOutput.event_shape self
  ∧ (∀ v, DistributionOutput.setattr self DistributionOutput.prop_event_dim v
          = Raise AttributeError)
  ∧ (∀ dt, DistributionOutput.event_dim (Output.dtype_setter self dt)
           = DistributionOutput.event_dim self).
Proof.
  intros Hs. unfold DistributionOutput.event_dim.
  split; [by rewrite Hs|].
  split; [by destruct (DistributionOutput.event_shape self)|].
  split; [done|].
  intros dt. reflexivity.
Qed.

(** C8.  On an object whose class overrides neither [domain_map] nor
    [event_shape], as [DistributionOutput] itself, calling [domain_map]
    and reading [event_shape] raise [NotImplementedError]: no value is
    returned in their place. *)
Theorem abstract_members_not_implemented (self : object elt) (F : engine)
    (args : list mat) :
  domain_map_def (cls self) = None →
  event_shape_def (cls self) = None →
  DistributionOutput.self_domain_map self F args = Raise NotImplementedError
  ∧ Output.domain_map self F args = Raise NotImplementedError
  ∧ DistributionOutput.event_shape self = Raise NotImplementedError
  ∧ (∀ v, DistributionOutput.self_domain_map self F args ≠ Ok v)
  ∧ (∀ v, DistributionOutput.event_shape self ≠ Ok v).
Proof.
  intros Hd He.
  unfold DistributionOutput.self_domain_map, DistributionOutput.event_shape.
  rewrite Hd, He. done.
Qed.
End DistributionOutputFacts.

Lemma distribution_raw_or_affine_witness :
  transform
    (AffineTransformedDistribution (Instance "Gaussian" []) (Some [[5]]%Z)
       (Some [[2]]%Z)) [[3; 4]; [1; 0]]%Z
  = Ok [[11; 13]; [7; 5]]%Z
  ∧ transform
      (AffineTransformedDistribution (Instance "Gaussian" []) None
         (Some [[2; 3]]%Z)) [[3; 4]]%Z
    = Ok [[6; 12]]%Z.
Proof.
  destruct (distribution_raw_or_affine
              (DistributionOutput.__init__ Examples.gaussian_like) [])
    as (_ & _ & _ & _ & _ & _ & _ & Hscalar & Hscale & _).
  split.
  - exact (Hscalar "Gaussian" [] 5%Z 2%Z [[3; 4]; [1; 0]]%Z).
  - exact (Hscale "Gaussian" [] [[2; 3]]%Z [[3; 4]]%Z eq_refl).
Defined.

Lemma event_dim_is_len_event_shape_witness :
  DistributionOutput.event_shape (DistributionOutput.__init__ Examples.gaussian_like)
  = Ok [2; 3]
  ∧ DistributionOutput.event_dim (DistributionOutput.__init__ Examples.gaussian_like)
    = Ok 2.
Proof.
  split; [reflexivity|].
  apply (event_dim_is_len_event_shape
           (DistributionOutput.__init__ Examples.gaussian_like) [2; 3]).
  reflexivity.
Defined.

Lemma abstract_members_not_implemented_witness :
  DistributionOutput.self_domain_map
    (DistributionOutput.__init__ (abstract_base Z)) ndarray [[[1%Z]]]
  = Raise NotImplementedError
  ∧ DistributionOutput.event_shape
      (DistributionOutput.__init__ (abstract_base Z))
    = Raise NotImplementedError.
Proof.
  destruct (abstract_members_not_implemented
              (DistributionOutput.__init__ (abstract_base Z)) ndarray [[[1%Z]]]
              eq_refl eq_refl) as (Hd & _ & He & _).
  split; [exact Hd | exact He].
Defined.

(** ** The residual cell *)

Section ResidualCellFacts.
Context `{Elt elt}.
Local Abbreviation vec := (vec elt).
Local Abbreviation mat := (mat elt).
Local Abbreviation ten3 := (ten3 elt).
Local Abbreviation sequence := (sequence elt).
Context {Store St : Type}.
Implicit Types (reset : heap Store → heap Store).
Implicit Types (h : heap Store) (lay : layout) (vl : option (list nat)).

Lemma same_shape2_refl (x : mat) : same_shape2 x x = true.
Proof.
  unfold same_shape2. apply andb_true_iff. split; [by apply same_len_true|].
  apply forallb_forall. intros [r s] Hrs.
  apply list_elem_of_In, list_elem_of_lookup in Hrs as [i Hi].
  apply lookup_zip_with_Some in Hi as (a & b & [= <- <-] & Ha & Hb).
  apply same_len_true. cbn. congruence.
Qed.

Lemma zip_with_diag {A B} (f : A → A → B) (l : list A) :
  zip_with f l l = map (λ x, f x x) l.
Proof. induction l; cbn; congruence. Qed.

(** [unroll], step by step. *)
Lemma unroll_eq reset
    (bcu : nat → sequence → option St → layout → option bool →
           option (list nat) → M Store (sequence * St))
    length inputs begin_state lay merge_outputs vl h :
  ResidualCell.unroll reset bcu length inputs begin_state lay merge_outputs vl h
  = match bcu length inputs begin_state lay merge_outputs vl
            (ResidualCell.inner_heap reset h) with
    | (h2, Ok (outputs, states)) =>
        (ResidualCell.restored_heap h2,
         inputs' ← ResidualCell.normalized_inputs length inputs lay
                     (ResidualCell.merge_flag merge_outputs outputs) vl;
         combined ← ResidualCell.combine
                      (ResidualCell.merge_flag merge_outputs outputs)
                      outputs inputs';
         Ok (combined, states))
    | (h2, Raise e) => (h2, Raise e)
    end.
Proof.
  unfold ResidualCell.unroll, ResidualCell.inner_heap.
  unfold mbind at 1 2, M_bind at 1 2. cbn [set_base_modified].
  unfold mbind at 1, M_bind at 1.
  destruct (bcu _ _ _ _ _ _ _) as [h2 [[outputs states]|e]]; [|done].
  unfold mbind at 1, M_bind at 1. cbn [set_base_modified].
  fold (ResidualCell.restored_heap h2).
  fold (ResidualCell.merge_flag merge_outputs outputs).
  unfold ResidualCell.normalized_inputs, ResidualCell.combine.
  unfold mbind at 1, M_bind at 1, lift at 1.
  destruct (_format_sequence _ _ _ _) as [[[[i a] F] b]|e]; [|done].
  cbn [mbind result_bind].
  destruct vl as [valid_length|].
  - unfold mbind at 1, M_bind at 1, lift at 1.
    destruct (_mask_sequence_variable_length _ _ _ _ _ _) as [i'|e]; [|done].
    cbn [mbind result_bind].
    destruct (ResidualCell.merge_flag merge_outputs outputs).
    + unfold mbind at 1, M_bind at 1, lift at 1.
      by destruct (elemwise_add _ _).
    + unfold mbind at 1, M_bind at 1, lift at 1.
      by destruct (Steps <$> _).
  - unfold mbind at 1, M_bind at 1, mret at 1, M_ret at 1.
    cbn [mbind result_bind].
    destruct (ResidualCell.merge_flag merge_outputs outputs).
    + unfold mbind at 1, M_bind at 1, lift at 1.
      by destruct (elemwise_add _ _).
    + unfold mbind at 1, M_bind at 1, lift at 1.
      by destruct (Steps <$> _).
Qed.

Lemma hybrid_forward_eq (base_cell : mat → St → M Store (mat * St))
    F inputs states h :
  ResidualCell.hybrid_forward base_cell F inputs states h
  = match base_cell inputs states h with
    | (h', Ok (output, new_states)) =>
        (h', (λ o, (o, new_states)) <$> elemwise_add2 output inputs)
    | (h', Raise e) => (h', Raise e)
    end.
Proof.
  unfold ResidualCell.hybrid_forward. unfold mbind at 1, M_bind at 1.
  destruct (base_cell _ _ _) as [h' [[output new_states]|e]]; [|done].
  unfold mbind at 1, M_bind at 1, lift at 1.
  by destruct (elemwise_add2 _ _).
Qed.

(** C4.  One step of the residual cell calls the inner cell once, on
    the same input and state, and returns the inner cell's output plus
    the input together with the state the inner cell returned, as it
    is.  When the inner cell hands back its input and its state, the
    step returns [(2 * x, s)]. *)
Theorem hybrid_forward_adds_input (base_cell : mat → St → M Store (mat * St))
    (F : engine) (inputs : mat) (states : St) h h' (output : mat)
    (new_states : St) :
  base_cell inputs states h = (h', Ok (output, new_states)) →
  same_shape2 output inputs = true →
  (∀ x : elt, add x x = mul two x) →
  ResidualCell.hybrid_forward base_cell F inputs states h
  = (h', Ok (zip_with (zip_with add) output inputs, new_states))
  ∧ ∀ (x : mat) (s : St) h0,
      ResidualCell.hybrid_forward (λ x s, mret (x, s)) F x s h0
      = (h0, Ok (scalar_mul two x, s)).
Proof.
  intros Hbase Hshape Hdbl. split.
  - rewrite hybrid_forward_eq, Hbase. unfold elemwise_add2.
    by rewrite Hshape.
  - intros x s h0. rewrite hybrid_forward_eq. cbn.
    unfold elemwise_add2. rewrite same_shape2_refl. cbn.
    do 3 f_equal. unfold scalar_mul. rewrite zip_with_diag.
    apply map_ext. intros r. rewrite zip_with_diag.
    apply map_ext. intros a. apply Hdbl.
Qed.

(** C5 (amended).  [unroll] starts the inner [unroll] on a heap where
    the inner cell's [_modified] flag is off.  When the inner [unroll]
    returns, the flag is switched on again before anything else is
    done, so it is on at the end whether [unroll] then returns or a
    later step raises.  When the inner [unroll] raises, [unroll] ends
    there, with the heap as the inner [unroll] left it: the wrapper
    does not switch the flag on again. *)
Theorem unroll_modified_flag reset
    (bcu : nat → sequence → option St → layout → option bool →
           option (list nat) → M Store (sequence * St))
    length inputs begin_state lay merge_outputs vl h :
  base_modified (ResidualCell.inner_heap reset h) = false
  ∧ match bcu length inputs begin_state lay merge_outputs vl
            (ResidualCell.inner_heap reset h) with
    | (h2, Ok _) =>
        base_modified
          (ResidualCell.unroll reset bcu length inputs begin_state lay
             merge_outputs vl h).1 = true
        ∧ others
            (ResidualCell.unroll reset bcu length inputs begin_state lay
               merge_outputs vl h).1 = others h2
    | (h2, Raise e) =>
        ResidualCell.unroll reset bcu length inputs begin_state lay
          merge_outputs vl h = (h2, Raise e)
    end.
Proof.
  split; [done|]. rewrite unroll_eq.
  by destruct (bcu _ _ _ _ _ _ _) as [h2 [[outputs states]|e]].
Qed.

Lemma to_convention_isinstance axis length (s s' : sequence) (merge : bool) :
  to_convention axis length s merge = Ok s' → isinstance_tensor s' = merge.
Proof.
  unfold to_convention. destruct s as [t|l], merge; cbn.
  - by intros [= <-].
  - destruct (split axis length t); cbn; [by intros [= <-]|done].
  - destruct (stack axis l); cbn; [by intros [= <-]|done].
  - by intros [= <-].
Qed.

Lemma normalized_inputs_isinstance length (inputs inputs' : sequence) lay
    (merge : bool) vl :
  ResidualCell.normalized_inputs length inputs lay merge vl = Ok inputs' →
  isinstance_tensor inputs' = merge.
Proof.
  unfold ResidualCell.normalized_inputs, _format_sequence.
  destruct (to_convention (find_T lay) length inputs merge) as [i|e] eqn:Hi;
    [|done].
  cbn. destruct vl as [valid_length|].
  - unfold _mask_sequence_variable_length.
    destruct (match i with Tensor _ => _ | Steps _ => _ end) as [m|e];
      [|done].
    cbn. apply to_convention_isinstance.
  - intros [= <-]. by eapply to_convention_isinstance.
Qed.

Lemma combine_isinstance (merge : bool) (outputs inputs combined : sequence) :
  ResidualCell.combine merge outputs inputs = Ok combined →
  isinstance_tensor combined = merge.
Proof.
  unfold ResidualCell.combine. destruct merge.
  - destruct outputs as [x|], inputs as [y|]; try done. cbn.
    destruct (elemwise_add3 x y); cbn; [by intros [= <-]|done].
  - destruct (traverse _ _); cbn; [by intros [= <-]|done].
Qed.

Lemma length_traverse {A B} (f : A → result B) (g : A → B) (l : list A) :
  Forall (λ x, f x = Ok (g x)) l →
  ∃ k, traverse f l = Ok k ∧ length k = length l.
Proof.
  intros Hl. exists (map g l).
  split; [by apply traverse_Ok | by rewrite length_map].
Qed.

(** C10.  In the list convention the sum is made pair by pair over
    [zip (outputs, inputs)]: when the paired steps have equal shapes,
    [unroll] returns a list whose length is the smaller of the length
    of the inner cell's output list and the length of the normalized
    input list.  Lists of different lengths are cut to the shorter one
    and nothing is raised. *)
Theorem unroll_list_length_is_min reset
    (bcu : nat → sequence → option St → layout → option bool →
           option (list nat) → M Store (sequence * St))
    length inputs begin_state lay merge_outputs vl h h2
    (lo : list mat) (states : St) (inputs' : sequence) :
  bcu length inputs begin_state lay merge_outputs vl
    (ResidualCell.inner_heap reset h) = (h2, Ok (Steps lo, states)) →
  merge_outputs ≠ Some true →
  ResidualCell.normalized_inputs length inputs lay false vl = Ok inputs' →
  Forall (λ p : mat * mat, same_shape2 p.1 p.2 = true) (zip lo (iter inputs')) →
  ∃ li lc,
    inputs' = Steps li
    ∧ ResidualCell.unroll reset bcu length inputs begin_state lay
        merge_outputs vl h
      = (ResidualCell.restored_heap h2, Ok (Steps lc, states))
    ∧ List.length lc = List.length lo `min` List.length li.
Proof.
  intros Hbase Hm Hnorm Hshape.
  assert (Hflag : ResidualCell.merge_flag merge_outputs (Steps lo) = false).
  { destruct merge_outputs as [[]|]; done. }
  pose proof (normalized_inputs_isinstance _ _ _ _ _ _ Hnorm) as Hli.
  destruct inputs' as [t|li]; [done|]. cbn in Hshape.
  destruct (length_traverse (λ '(i, j), elemwise_add2 i j)
              (λ p : mat * mat, zip_with (zip_with add) p.1 p.2) (zip lo li))
    as (lc & Hlc & Hlen).
  { eapply Forall_impl; [exact Hshape|]. intros [i j] Hij. cbn in *.
    unfold elemwise_add2. by rewrite Hij. }
  exists li, lc. split; [done|]. split.
  - rewrite unroll_eq, Hbase, Hflag, Hnorm. cbn.
    by rewrite Hlc.
  - rewrite Hlen. apply length_zip.
Qed.

(** *** Exchanging the leading axes *)

Lemma length_transpose_n {A} (d : nat) (a : list (list A)) :
  Forall (λ r, List.length r = d) a → List.length (transpose_n d a) = d.
Proof.
  induction 1 as [|r a Hr _ IH]; cbn.
  - apply length_replicate.
  - rewrite length_zip_with. lia.
Qed.

Lemma lookup_transpose_n {A} (d : nat) (a : list (list A)) (j i : nat) :
  Forall (λ r, List.length r = d) a →
  transpose_n d a !! j ≫= (.!! i) = a !! i ≫= (.!! j).
Proof.
  intros Ha. revert i. induction Ha as [|r a Hr Ha IH]; intros i; cbn.
  - destruct (replicate d [] !! j) as [c|] eqn:Hc; cbn; [|done].
    apply lookup_replicate in Hc as [-> _]. done.
  - pose proof (length_transpose_n d a Ha) as Hlen.
    rewrite lookup_zip_with.
    destruct (r !! j) as [x|] eqn:Hx; cbn.
    + destruct (transpose_n d a !! j) as [y|] eqn:Hy; cbn.
      * destruct i as [|i]; cbn; [done|].
        exact (IH i).
      * apply lookup_lt_Some in Hx. apply lookup_ge_None in Hy. lia.
    + destruct i as [|i]; cbn; [done|].
      rewrite <- IH. apply lookup_ge_None in Hx.
      rewrite (proj2 (lookup_ge_None (transpose_n d a) j)); [done|lia].
Qed.

Lemma has_shape2_cons (N C : nat) (x : vec) (y : mat) :
  List.length x = C → has_shape2 N C y → has_shape2 (S N) C (x :: y).
Proof.
  intros Hx [Hy1 Hy2]. split; cbn; [by f_equal | by constructor].
Qed.

Lemma has_shape3_transpose_n (d0 d1 C : nat) (a : ten3) :
  has_shape3 d0 d1 C a → has_shape3 d1 d0 C (transpose_n d1 a).
Proof.
  intros [<- Ha]. induction Ha as [|r a [Hr1 Hr2] Ha IH]; cbn.
  - split; [apply length_replicate|].
    apply Forall_forall. intros m Hm.
    apply elem_of_replicate in Hm as [-> _]. by split.
  - destruct IH as [IH1 IH2]. split.
    + rewrite length_zip_with. unfold mat, vec in *. lia.
    + apply Forall_lookup. intros j m Hm.
      apply lookup_zip_with_Some in Hm as (x & y & -> & Hx & Hy).
      apply has_shape2_cons.
      * exact (Forall_lookup_1 _ _ _ _ Hr2 Hx).
      * exact (Forall_lookup_1 _ _ _ _ IH2 Hy).
Qed.

Lemma has_shape3_rows (d0 d1 C : nat) (a : ten3) :
  has_shape3 d0 d1 C a → Forall (λ r : mat, List.length r = d1) a.
Proof. intros [_ Ha]. eapply Forall_impl; [exact Ha|]. by intros r [? _]. Qed.

(** *** Conventions *)

Lemma to_convention_entry lay length (s s' : sequence) (merge : bool) :
  to_convention (find_T lay) length s merge = Ok s' →
  ∀ tm n, entry lay s' tm n = entry lay s tm n.
Proof.
  unfold to_convention. destruct s as [t|l], merge; cbn.
  - by intros [= <-].
  - unfold split. destruct lay; cbn.
    + destruct (uniform length t) eqn:Hu; cbn; [|done].
      intros [= <-] tm n. cbn.
      apply lookup_transpose_n. by apply uniform_true.
    + destruct (List.length t =? length)%nat; cbn; [|done].
      by intros [= <-].
  - unfold stack. destruct (uniform _ l) eqn:Hu; cbn; [|done].
    intros [= <-] tm n. destruct lay; cbn; [|done].
    apply lookup_transpose_n. by apply uniform_true.
  - by intros [= <-].
Qed.

Lemma to_convention_ok lay length (s : sequence) (merge : bool) (N C : nat) :
  0 < length →
  seq_shape lay s length N C →
  ∃ s', to_convention (find_T lay) length s merge = Ok s'
        ∧ seq_shape lay s' length N C.
Proof.
  intros Hpos Hs. unfold to_convention. destruct s as [t|l], merge; cbn.
  - by eexists.
  - unfold split. destruct lay; cbn in *.
    + rewrite (proj2 (uniform_true length t)); [|by eapply has_shape3_rows].
      eexists. split; [done|]. cbn. by apply has_shape3_transpose_n.
    + destruct Hs as [Hlen Hs]. rewrite Hlen, Nat.eqb_refl.
      eexists. split; [done|]. by split.
  - unfold stack. cbn in Hs.
    assert (HN : match l with s0 :: _ => List.length s0 | [] => 0 end = N).
    { destruct Hs as [Hlen Hs]. destruct l as [|s0 l]; cbn in *; [lia|].
      by apply Forall_cons_1 in Hs as [[? _] _]. }
    rewrite HN.
    rewrite (proj2 (uniform_true N l)); [|by eapply has_shape3_rows].
    eexists. split; [done|]. destruct lay; cbn; [|done].
    by apply has_shape3_transpose_n.
  - by eexists.
Qed.

(** *** Masking by valid length *)

Lemma length_mask_vec (tm k : nat) (v : vec) :
  List.length (mask_vec tm k v) = List.length v.
Proof.
  unfold mask_vec, zeros_like. destruct (tm <? k)%nat; [done|].
  apply length_replicate.
Qed.

Lemma mask_vec_padded (tm k : nat) (v : vec) :
  k ≤ tm → mask_vec tm k v = replicate (List.length v) zero.
Proof.
  intros Hk. unfold mask_vec, zeros_like.
  by rewrite (proj2 (Nat.ltb_ge tm k) Hk).
Qed.

Lemma mask_time_major_entry (valid_length : list nat) (l l' : list mat) :
  mask_time_major valid_length l = Ok l' →
  ∀ tm n,
    l' !! tm ≫= (.!! n)
    = (l !! tm ≫= (.!! n)) ≫=
        λ v, k ← valid_length !! n; Some (mask_vec tm k v).
Proof.
  unfold mask_time_major. destruct (uniform _ l); [|done].
  intros [= <-] tm n. rewrite list_lookup_imap. unfold mat, vec in *.
  destruct (l !! tm) as [step|]; cbn; [|done].
  rewrite lookup_zip_with.
  by destruct (valid_length !! n), (step !! n).
Qed.

Lemma mask_batch_major_entry (valid_length : list nat) (t t' : ten3) :
  mask_batch_major valid_length t = Ok t' →
  ∀ tm n,
    t' !! n ≫= (.!! tm)
    = (t !! n ≫= (.!! tm)) ≫=
        λ v, k ← valid_length !! n; Some (mask_vec tm k v).
Proof.
  unfold mask_batch_major. destruct (_ =? _)%nat; [|done].
  intros [= <-] tm n. unfold ten3, mat, vec in *. rewrite lookup_zip_with.
  destruct (valid_length !! n) as [k|], (t !! n) as [row|]; cbn; try done.
  - rewrite list_lookup_imap. by destruct (row !! tm).
  - by destruct (row !! tm).
Qed.

Lemma has_shape2_imap (f : nat → vec → vec) (N C : nat) (m : mat) :
  (∀ i v, List.length (f i v) = List.length v) →
  has_shape2 N C m → has_shape2 N C (imap f m).
Proof.
  intros Hf [Hm1 Hm2]. split; [by rewrite length_imap|].
  apply Forall_lookup_2. intros i r Hr.
  apply list_lookup_imap_Some in Hr as (v & Hv & ->).
  rewrite Hf. exact (Forall_lookup_1 _ _ _ _ Hm2 Hv).
Qed.

Lemma has_shape2_zip_with (f : nat → vec → vec) (ks : list nat) (N C : nat)
    (m : mat) :
  (∀ k v, List.length (f k v) = List.length v) →
  List.length ks = N →
  has_shape2 N C m → has_shape2 N C (zip_with f ks m).
Proof.
  intros Hf Hks [Hm1 Hm2]. split.
  - rewrite length_zip_with. unfold mat, vec in *. lia.
  - apply Forall_lookup_2. intros i r Hr.
    apply lookup_zip_with_Some in Hr as (k & v & -> & _ & Hv).
    rewrite Hf. exact (Forall_lookup_1 _ _ _ _ Hm2 Hv).
Qed.

Lemma mask_time_major_ok (valid_length : list nat) (l : list mat) (T N C : nat) :
  has_shape3 T N C l → List.length valid_length = N →
  ∃ l', mask_time_major valid_length l = Ok l' ∧ has_shape3 T N C l'.
Proof.
  intros Hl Hvl. unfold mask_time_major.
  rewrite (proj2 (uniform_true (List.length valid_length) l));
    [|rewrite Hvl; by eapply has_shape3_rows].
  eexists. split; [done|]. destruct Hl as [Hl1 Hl2]. split.
  - by rewrite length_imap.
  - apply Forall_lookup_2. intros tm m Hm.
    apply list_lookup_imap_Some in Hm as (step & Hstep & ->).
    apply has_shape2_zip_with; [apply length_mask_vec|done|].
    exact (Forall_lookup_1 _ _ _ _ Hl2 Hstep).
Qed.

Lemma mask_batch_major_ok (valid_length : list nat) (t : ten3) (T N C : nat) :
  has_shape3 N T C t → List.length valid_length = N →
  ∃ t', mask_batch_major valid_length t = Ok t' ∧ has_shape3 N T C t'.
Proof.
  intros [Hl1 Hl2] Hvl. unfold mask_batch_major.
  rewrite (proj2 (Nat.eqb_eq (List.length t) (List.length valid_length)));
    [|unfold ten3, mat, vec in *; lia].
  eexists. split; [done|]. split.
  - rewrite length_zip_with. unfold ten3, mat, vec in *. lia.
  - apply Forall_lookup_2. intros n m Hm.
    apply lookup_zip_with_Some in Hm as (k & row & -> & _ & Hrow).
    apply has_shape2_imap; [intros; apply length_mask_vec|].
    exact (Forall_lookup_1 _ _ _ _ Hl2 Hrow).
Qed.

Lemma mask_sequence_entry lay (data out : sequence) length
    (valid_length : list nat) (merge : bool) F :
  _mask_sequence_variable_length F data length valid_length (find_T lay) merge
  = Ok out →
  ∀ tm n,
    entry lay out tm n
    = entry lay data tm n ≫=
        λ v, k ← valid_length !! n; Some (mask_vec tm k v).
Proof.
  unfold _mask_sequence_variable_length. intros Hout tm n.
  destruct data as [t|l].
  - destruct lay; cbn in Hout.
    + destruct (mask_batch_major valid_length t) as [t'|] eqn:Ht; [|done].
      cbn in Hout.
      rewrite (to_convention_entry NTC length (Tensor t') out merge Hout). cbn.
      by apply mask_batch_major_entry.
    + destruct (mask_time_major valid_length t) as [t'|] eqn:Ht; [|done].
      cbn in Hout.
      rewrite (to_convention_entry TNC length (Tensor t') out merge Hout). cbn.
      by apply mask_time_major_entry.
  - destruct (mask_time_major valid_length l) as [l'|] eqn:Hl; [|done].
    cbn in Hout.
    rewrite (to_convention_entry lay length (Steps l') out merge Hout). cbn.
    by apply mask_time_major_entry.
Qed.

Lemma mask_sequence_ok lay (data : sequence) length (valid_length : list nat)
    (merge : bool) F (N C : nat) :
  0 < length →
  seq_shape lay data length N C →
  List.length valid_length = N →
  ∃ out,
    _mask_sequence_variable_length F data length valid_length (find_T lay) merge
    = Ok out
    ∧ seq_shape lay out length N C.
Proof.
  intros Hpos Hd Hvl. unfold _mask_sequence_variable_length.
  destruct data as [t|l].
  - destruct lay; cbn in *.
    + destruct (mask_batch_major_ok valid_length t length N C Hd Hvl)
        as (t' & -> & Ht'). cbn.
      by apply (to_convention_ok NTC length (Tensor t')).
    + destruct (mask_time_major_ok valid_length t length N C Hd Hvl)
        as (t' & -> & Ht'). cbn.
      by apply (to_convention_ok TNC length (Tensor t')).
  - cbn in Hd.
    destruct (mask_time_major_ok valid_length l length N C Hd Hvl)
      as (l' & -> & Hl'). cbn.
    by apply (to_convention_ok lay length (Steps l')).
Qed.

Lemma normalized_inputs_masked lay (inputs : sequence) length
    (valid_length : list nat) (merge : bool) (N C : nat) :
  0 < length →
  seq_shape lay inputs length N C →
  List.length valid_length = N →
  ∃ inputs',
    ResidualCell.normalized_inputs length inputs lay merge (Some valid_length)
    = Ok inputs'
    ∧ seq_shape lay inputs' length N C
    ∧ ∀ tm n,
        entry lay inputs' tm n
        = entry lay inputs tm n ≫=
            λ v, k ← valid_length !! n; Some (mask_vec tm k v).
Proof.
  intros Hpos Hin Hvl. unfold ResidualCell.normalized_inputs, _format_sequence.
  destruct (to_convention_ok lay length inputs merge N C Hpos Hin)
    as (i & Hi & Hshape).
  rewrite Hi. cbn.
  destruct (mask_sequence_ok lay i length valid_length merge ndarray N C
              Hpos Hshape Hvl) as (out & Hout & Hshape').
  exists out. split; [done|]. split; [done|].
  intros tm n. rewrite (mask_sequence_entry lay _ _ _ _ _ _ Hout).
  by rewrite (to_convention_entry lay _ _ _ _ Hi).
Qed.

(** *** The addition *)

Lemma has_shape2_same (N C : nat) (a b : mat) :
  has_shape2 N C a → has_shape2 N C b → same_shape2 a b = true.
Proof.
  intros [Ha1 Ha2] [Hb1 Hb2]. unfold same_shape2.
  apply andb_true_iff. split; [apply same_len_true; congruence|].
  apply forallb_forall. intros [r s] Hrs.
  apply list_elem_of_In, list_elem_of_lookup in Hrs as [i Hi].
  apply lookup_zip_with_Some in Hi as (x & y & [= <- <-] & Hx & Hy).
  apply same_len_true. cbn.
  rewrite (Forall_lookup_1 _ _ _ _ Ha2 Hx).
  by rewrite (Forall_lookup_1 _ _ _ _ Hb2 Hy).
Qed.

Lemma has_shape3_pairs (d0 d1 C : nat) (a b : ten3) :
  has_shape3 d0 d1 C a → has_shape3 d0 d1 C b →
  Forall (λ p : mat * mat, same_shape2 p.1 p.2 = true) (zip a b).
Proof.
  intros [_ Ha] [_ Hb]. apply Forall_lookup_2. intros i [r s] Hi.
  apply lookup_zip_with_Some in Hi as (x & y & [= <- <-] & Hx & Hy). cbn.
  eapply has_shape2_same.
  - exact (Forall_lookup_1 _ _ _ _ Ha Hx).
  - exact (Forall_lookup_1 _ _ _ _ Hb Hy).
Qed.

Lemma has_shape3_same (d0 d1 C : nat) (a b : ten3) :
  has_shape3 d0 d1 C a → has_shape3 d0 d1 C b → same_shape3 a b = true.
Proof.
  intros Ha Hb. unfold same_shape3. apply andb_true_iff. split.
  - apply same_len_true. destruct Ha, Hb. congruence.
  - apply forallb_forall. intros p Hp. apply list_elem_of_In in Hp.
    pose proof (has_shape3_pairs d0 d1 C a b Ha Hb) as Hall.
    rewrite Forall_forall in Hall. by apply Hall.
Qed.

Lemma lookup_sum3 (a b : ten3) (i j : nat) :
  zip_with (zip_with (zip_with add)) a b !! i ≫= (.!! j)
  = x ← a !! i ≫= (.!! j); y ← b !! i ≫= (.!! j); Some (zip_with add x y).
Proof.
  unfold ten3, mat, vec in *. rewrite lookup_zip_with.
  destruct (a !! i) as [ra|], (b !! i) as [rb|]; cbn; try done.
  - rewrite lookup_zip_with. by destruct (ra !! j), (rb !! j).
  - by destruct (ra !! j).
Qed.

Lemma combine_sum lay (merge : bool) (outputs inputs : sequence) (T N C : nat) :
  seq_shape lay outputs T N C →
  seq_shape lay inputs T N C →
  isinstance_tensor outputs = merge →
  isinstance_tensor inputs = merge →
  ∃ combined,
    ResidualCell.combine merge outputs inputs = Ok combined
    ∧ ∀ tm n,
        entry lay combined tm n
        = x ← entry lay outputs tm n; y ← entry lay inputs tm n;
          Some (zip_with add x y).
Proof.
  intros Ho Hi Hmo Hmi. unfold ResidualCell.combine.
  destruct outputs as [o|o], inputs as [i|i], merge; try done; cbn in *.
  - unfold elemwise_add3. destruct lay.
    + rewrite (has_shape3_same _ _ _ _ _ Ho Hi). eexists. split; [done|].
      intros tm n. cbn. apply lookup_sum3.
    + rewrite (has_shape3_same _ _ _ _ _ Ho Hi). eexists. split; [done|].
      intros tm n. cbn. apply lookup_sum3.
  - assert (Htr : traverse (λ '(x, y), elemwise_add2 x y) (zip o i)
                  = Ok (zip_with (zip_with (zip_with add)) o i)).
    { rewrite (zip_with_zip (zip_with (zip_with add)) o i).
      apply traverse_Ok.
      eapply Forall_impl; [exact (has_shape3_pairs _ _ _ _ _ Ho Hi)|].
      intros [x y] Hxy. cbn in *. unfold elemwise_add2. by rewrite Hxy. }
    rewrite Htr. eexists. split; [done|].
    intros tm n. apply lookup_sum3.
Qed.

Lemma seq_shape_entry lay (s : sequence) (T N C tm n : nat) :
  seq_shape lay s T N C → tm < T → n < N →
  ∃ v, entry lay s tm n = Some v ∧ List.length v = C.
Proof.
  assert (Haux : ∀ (a : ten3) d0 d1 i j,
            has_shape3 d0 d1 C a → i < d0 → j < d1 →
            ∃ v, a !! i ≫= (.!! j) = Some v ∧ List.length v = C).
  { intros a d0 d1 i j [Ha1 Ha2] Hi Hj. unfold ten3, mat, vec in *.
    destruct (lookup_lt_is_Some_2 a i) as [m Hm]; [lia|].
    destruct (Forall_lookup_1 _ _ _ _ Ha2 Hm) as [Hm1 Hm2].
    unfold ten3, mat, vec in *.
    destruct (lookup_lt_is_Some_2 m j) as [v Hv]; [lia|].
    exists v. rewrite Hm. cbn. split; [done|].
    exact (Forall_lookup_1 _ _ _ _ Hm2 Hv). }
  intros Hs Htm Hn. destruct s as [t|l]; cbn in *.
  - destruct lay; eauto.
  - eauto.
Qed.

Lemma zip_with_add_zeros (x : vec) :
  (∀ a : elt, add a zero = a) →
  zip_with add x (replicate (List.length x) zero) = x.
Proof. intros Hadd. induction x as [|a x IH]; cbn; [done|]. by rewrite Hadd, IH. Qed.

(** C1.  When [unroll] is given valid lengths, the inputs reach the
    addition with zeros at every position beyond the valid length of
    its sequence, so at such a position the sum is the inner cell's
    own output.  Stated for an inner [unroll] that returns, in the
    convention asked for, outputs of the shape of the inputs, [length]
    steps (at least one) of [N] sequences with [C] channels, and for
    one valid length per sequence. *)
Theorem unroll_masks_padded_inputs reset
    (bcu : nat → sequence → option St → layout → option bool →
           option (list nat) → M Store (sequence * St))
    length inputs begin_state lay merge_outputs (valid_length : list nat)
    h h2 (outputs : sequence) (states : St) (N C : nat) :
  bcu length inputs begin_state lay merge_outputs (Some valid_length)
    (ResidualCell.inner_heap reset h) = (h2, Ok (outputs, states)) →
  isinstance_tensor outputs = ResidualCell.merge_flag merge_outputs outputs →
  0 < length →
  seq_shape lay inputs length N C →
  seq_shape lay outputs length N C →
  List.length valid_length = N →
  (∀ a : elt, add a zero = a) →
  ∃ inputs' combined,
    ResidualCell.normalized_inputs length inputs lay
      (ResidualCell.merge_flag merge_outputs outputs) (Some valid_length)
    = Ok inputs'
    ∧ ResidualCell.combine (ResidualCell.merge_flag merge_outputs outputs)
        outputs inputs' = Ok combined
    ∧ ResidualCell.unroll reset bcu length inputs begin_state lay
        merge_outputs (Some valid_length) h
      = (ResidualCell.restored_heap h2, Ok (combined, states))
    ∧ ∀ tm n k,
        valid_length !! n = Some k → k ≤ tm → tm < length →
        entry lay inputs' tm n = Some (replicate C zero)
        ∧ is_Some (entry lay outputs tm n)
        ∧ entry lay combined tm n = entry lay outputs tm n.
Proof.
  intros Hbase Hconv Hpos Hin Hout Hvl Hadd.
  set (m := ResidualCell.merge_flag merge_outputs outputs) in *.
  destruct (normalized_inputs_masked lay inputs length valid_length m N C
              Hpos Hin Hvl) as (inputs' & Hnorm & Hshape & Hentry).
  pose proof (normalized_inputs_isinstance _ _ _ _ _ _ Hnorm) as Hconv'.
  destruct (combine_sum lay m outputs inputs' length N C Hout Hshape
              Hconv Hconv') as (combined & Hcomb & Hsum).
  exists inputs', combined. split; [done|]. split; [done|]. split.
  - rewrite unroll_eq, Hbase. fold m. rewrite Hnorm. cbn. by rewrite Hcomb.
  - intros tm n k Hk Hle Htm.
    assert (Hn : n < N).
    { rewrite <- Hvl. by eapply lookup_lt_Some. }
    destruct (seq_shape_entry lay inputs length N C tm n Hin Htm Hn)
      as (v & Hv & Hvlen).
    destruct (seq_shape_entry lay outputs length N C tm n Hout Htm Hn)
      as (o & Ho & Holen).
    assert (Hzero : entry lay inputs' tm n = Some (replicate C zero)).
    { rewrite Hentry, Hv. cbn. rewrite Hk. cbn.
      by rewrite mask_vec_padded, Hvlen. }
    split; [done|]. split; [by rewrite Ho|].
    rewrite Hsum, Ho, Hzero. cbn. f_equal.
    rewrite <- Holen. by apply zip_with_add_zeros.
Qed.

(** *** The convention of the inputs *)

Lemma normalized_inputs_entry lay (inputs inputs' : sequence) length
    (merge : bool) vl :
  ResidualCell.normalized_inputs length inputs lay merge vl = Ok inputs' →
  ∀ tm n,
    entry lay inputs' tm n
    = match vl with
      | None => entry lay inputs tm n
      | Some valid_length =>
          entry lay inputs tm n ≫=
            λ v, k ← valid_length !! n; Some (mask_vec tm k v)
      end.
Proof.
  unfold ResidualCell.normalized_inputs, _format_sequence.
  destruct (to_convention (find_T lay) length inputs merge) as [i|e] eqn:Hi;
    [|done].
  cbn. destruct vl as [valid_length|].
  - intros Hout tm n. rewrite (mask_sequence_entry lay _ _ _ _ _ _ Hout).
    by rewrite (to_convention_entry lay _ _ _ _ Hi).
  - intros [= <-] tm n. by rewrite (to_convention_entry lay _ _ _ _ Hi).
Qed.

Lemma normalized_inputs_ok lay (inputs : sequence) length (merge : bool) vl
    (N C : nat) :
  0 < length →
  seq_shape lay inputs length N C →
  (∀ v, vl = Some v → List.length v = N) →
  ∃ inputs',
    ResidualCell.normalized_inputs length inputs lay merge vl = Ok inputs'
    ∧ seq_shape lay inputs' length N C.
Proof.
  intros Hpos Hin Hvl. destruct vl as [v|].
  - destruct (normalized_inputs_masked lay inputs length v merge N C Hpos Hin
                (Hvl v eq_refl)) as (inputs' & Hn & Hs & _).
    by exists inputs'.
  - unfold ResidualCell.normalized_inputs, _format_sequence.
    destruct (to_convention_ok lay length inputs merge N C Hpos Hin)
      as (i & Hi & Hs).
    rewrite Hi. cbn. by exists i.
Qed.

Lemma traverse_add_inv (l : list (mat * mat)) (k : list mat) :
  traverse (λ '(i, j), elemwise_add2 i j) l = Ok k →
  k = uncurry (zip_with (zip_with add)) <$> l.
Proof.
  revert k. induction l as [|[i j] l IH]; intros k; cbn [traverse].
  - by intros [= <-].
  - destruct (elemwise_add2 i j) as [y|e] eqn:Hy; cbn [mbind result_bind];
      [|done].
    destruct (traverse _ l) as [k'|e]; cbn [mbind result_bind]; [|done].
    intros [= <-]. cbn. f_equal; [|by apply IH].
    unfold elemwise_add2 in Hy. destruct (same_shape2 i j); congruence.
Qed.

Lemma combine_entry lay (merge : bool) (outputs inputs combined : sequence) :
  ResidualCell.combine merge outputs inputs = Ok combined →
  isinstance_tensor outputs = merge →
  isinstance_tensor inputs = merge →
  ∀ tm n,
    entry lay combined tm n
    = x ← entry lay outputs tm n; y ← entry lay inputs tm n;
      Some (zip_with add x y).
Proof.
  unfold ResidualCell.combine.
  destruct outputs as [o|o], inputs as [i|i], merge; try done; cbn [iter].
  - cbn. unfold elemwise_add3. destruct (same_shape3 o i); [|done]. cbn.
    intros [= <-] _ _ tm n. destruct lay; apply lookup_sum3.
  - destruct (traverse _ (zip o i)) as [k|e] eqn:Hk; [|done]. cbn.
    intros [= <-] _ _ tm n. apply traverse_add_inv in Hk. subst k.
    rewrite <- (zip_with_zip (zip_with (zip_with add)) o i).
    apply lookup_sum3.
Qed.

(** C6.  When [merge_outputs] is not given, [unroll] decides between
    the merged and the list convention by the type of what the inner
    [unroll] returned: merged exactly when that is one tensor.  The
    inputs are brought to that convention before they are added: what
    is added holds, at every step and sequence, the entry the inputs
    hold there (masked, when valid lengths are given), as one tensor
    exactly when the outputs are one tensor.  The sum is in that
    convention too, each of its entries the output's entry plus the
    normalized input's.  Inputs of [length] steps, at least one, of
    [N] sequences are always normalized. *)
Theorem unroll_infers_convention reset
    (bcu : nat → sequence → option St → layout → option bool →
           option (list nat) → M Store (sequence * St))
    length inputs begin_state lay vl h h2 (outputs : sequence) (states : St) :
  bcu length inputs begin_state lay None vl (ResidualCell.inner_heap reset h)
  = (h2, Ok (outputs, states)) →
  (ResidualCell.merge_flag None outputs = true ↔ ∃ t, outputs = Tensor t)
  ∧ ResidualCell.unroll reset bcu length inputs begin_state lay None vl h
    = (ResidualCell.restored_heap h2,
       inputs' ← ResidualCell.normalized_inputs length inputs lay
                   (isinstance_tensor outputs) vl;
       combined ← ResidualCell.combine (isinstance_tensor outputs)
                    outputs inputs';
       Ok (combined, states))
  ∧ (∀ inputs',
       ResidualCell.normalized_inputs length inputs lay
         (isinstance_tensor outputs) vl = Ok inputs' →
       isinstance_tensor inputs' = isinstance_tensor outputs)
  ∧ (∀ inputs' combined,
       ResidualCell.combine (isinstance_tensor outputs) outputs inputs'
       = Ok combined →
       isinstance_tensor combined = isinstance_tensor outputs)
  ∧ (∀ inputs',
       ResidualCell.normalized_inputs length inputs lay
         (isinstance_tensor outputs) vl = Ok inputs' →
       ∀ tm n,
         entry lay inputs' tm n
         = match vl with
           | None => entry lay inputs tm n
           | Some valid_length =>
               entry lay inputs tm n ≫=
                 λ v, k ← valid_length !! n; Some (mask_vec tm k v)
           end)
  ∧ (∀ inputs' combined,
       ResidualCell.normalized_inputs length inputs lay
         (isinstance_tensor outputs) vl = Ok inputs' →
       ResidualCell.combine (isinstance_tensor outputs) outputs inputs'
       = Ok combined →
       ∀ tm n,
         entry lay combined tm n
         = x ← entry lay outputs tm n; y ← entry lay inputs' tm n;
           Some (zip_with add x y))
  ∧ (∀ N C,
       0 < length →
       seq_shape lay inputs length N C →
       (∀ v, vl = Some v → List.length v = N) →
       ∃ inputs',
         ResidualCell.normalized_inputs length inputs lay
           (isinstance_tensor outputs) vl = Ok inputs'
         ∧ isinstance_tensor inputs' = isinstance_tensor outputs
         ∧ seq_shape lay inputs' length N C).
Proof.
  intros Hbase. split; [|split; [|split; [|split; [|split; [|split]]]]].
  - cbn. destruct outputs as [t|l]; cbn; split; try done.
    + by exists t.
    + by intros [t ?].
  - by rewrite unroll_eq, Hbase.
  - intros inputs'. apply normalized_inputs_isinstance.
  - intros inputs' combined. apply combine_isinstance.
  - intros inputs'. apply normalized_inputs_entry.
  - intros inputs' combined Hn Hc. apply (combine_entry lay _ _ _ _ Hc).
    + done.
    + by eapply normalized_inputs_isinstance.
  - intros N C Hpos Hin Hvl.
    destruct (normalized_inputs_ok lay inputs length
                (isinstance_tensor outputs) vl N C Hpos Hin Hvl)
      as (inputs' & Hn & Hs).
    exists inputs'. split; [done|]. split; [|done].
    by eapply normalized_inputs_isinstance.
Qed.

(** *** Empty outputs *)

End ResidualCellFacts.

(** ** The statements on concrete cells *)

(** Merged convention, no valid lengths, three steps, inner output 1
    everywhere: every step of the sum is [1 + input]. *)
Example unroll_ones_merged :
  ResidualCell.unroll id Examples.ones_unroll 3
    (Tensor [[[5]]; [[6]]; [[7]]]%Z) None TNC (Some true) None Examples.h_on
  = (Examples.h_on, Ok (Tensor [[[6]]; [[7]]; [[8]]]%Z, ())).
Proof. reflexivity. Qed.

(** Batch-first inputs given as one tensor and valid lengths 1 and 3:
    the first sequence gets its input added at step 0 only. *)
Example unroll_masked_batch_first :
  ResidualCell.unroll id Examples.echo_unroll 3 Examples.batch_NTC None NTC
    None (Some [1; 3]) Examples.h_on
  = (Examples.h_on,
     Ok (Tensor [[[2; 4]; [3; 4]; [5; 6]]; [[14; 16]; [18; 20]; [22; 24]]]%Z,
         ())).
Proof. reflexivity. Qed.

(** The same inputs asked for as a list while the inner cell answers
    with one tensor: [zip] walks the batch axis of the tensor and the
    engine refuses the shapes. *)
Example unroll_list_asked_tensor_returned :
  ResidualCell.unroll id Examples.echo_unroll 3 Examples.batch_NTC None NTC
    (Some false) None Examples.h_on
  = (Examples.h_on, Raise ShapeError).
Proof. reflexivity. Qed.

Lemma hybrid_forward_adds_input_witness :
  ResidualCell.hybrid_forward Examples.echo_cell ndarray [[1; 2]; [3; 4]]%Z ()
    Examples.h_on
  = (Examples.h_on, Ok ([[2; 4]; [6; 8]]%Z, ())).
Proof.
  refine (proj1 (hybrid_forward_adds_input Examples.echo_cell ndarray
                   [[1; 2]; [3; 4]]%Z () Examples.h_on Examples.h_on
                   [[1; 2]; [3; 4]]%Z () _ _ _)).
  - reflexivity.
  - reflexivity.
  - intros x. cbn. lia.
Defined.

(** C5, as stated, fails: when the inner [unroll] raises, [unroll]
    ends with the inner cell's flag still off. *)
Lemma unroll_modified_flag_counterexample :
  ResidualCell.unroll id Examples.failing_unroll 2 Examples.two_steps None TNC
    None None Examples.h_on
  = (Examples.h_off, Raise TypeError)
  ∧ base_modified
      (ResidualCell.unroll id Examples.failing_unroll 2 Examples.two_steps None
         TNC None None Examples.h_on).1 = false.
Proof. split; reflexivity. Qed.

Lemma unroll_infers_convention_witness :
  ResidualCell.unroll id MoreExamples.ones_list_unroll 3 Examples.batch_NTC
    None NTC None None Examples.h_on
  = (Examples.h_on,
     Ok (Steps [[[2; 3]; [8; 9]]; [[4; 5]; [10; 11]]; [[6; 7]; [12; 13]]]%Z,
         ())).
Proof.
  refine (eq_trans
            (proj1 (proj2 (unroll_infers_convention id
                             MoreExamples.ones_list_unroll 3
                             Examples.batch_NTC None NTC None Examples.h_on
                             Examples.h_off
                             (Steps [[[1; 1]; [1; 1]]; [[1; 1]; [1; 1]];
                                     [[1; 1]; [1; 1]]]%Z) () _))) _).
  - reflexivity.
  - reflexivity.
Defined.

Lemma unroll_list_length_is_min_witness :
  ∃ li lc,
    Steps [[[1]; [2]]; [[3]; [4]]]%Z = Steps li
    ∧ ResidualCell.unroll id Examples.one_step_unroll 2 Examples.two_steps None
        TNC None None Examples.h_on
      = (Examples.h_on, Ok (Steps lc, ()))
    ∧ length lc = length [[[10]; [20]]%Z] `min` length li.
Proof.
  apply (unroll_list_length_is_min id Examples.one_step_unroll 2
           Examples.two_steps None TNC None None Examples.h_on Examples.h_off
           [[[10]; [20]]]%Z () (Steps [[[1]; [2]]; [[3]; [4]]]%Z)).
  - reflexivity.
  - discriminate.
  - reflexivity.
  - repeat constructor.
Defined.

Lemma unroll_masks_padded_inputs_witness :
  ∃ inputs' combined,
    ResidualCell.normalized_inputs 3 Examples.batch_NTC NTC
      (ResidualCell.merge_flag None Examples.batch_NTC) (Some [1; 3])
    = Ok inputs'
    ∧ ResidualCell.combine (ResidualCell.merge_flag None Examples.batch_NTC)
        Examples.batch_NTC inputs' = Ok combined
    ∧ ResidualCell.unroll id Examples.echo_unroll 3 Examples.batch_NTC None NTC
        None (Some [1; 3]) Examples.h_on
      = (ResidualCell.restored_heap Examples.h_off, Ok (combined, ()))
    ∧ ∀ tm n k,
        [1; 3] !! n = Some k → k ≤ tm → tm < 3 →
        entry NTC inputs' tm n = Some (replicate 2 zero)
        ∧ is_Some (entry NTC Examples.batch_NTC tm n)
        ∧ entry NTC combined tm n = entry NTC Examples.batch_NTC tm n.
Proof.
  apply (unroll_masks_padded_inputs id Examples.echo_unroll 3
           Examples.batch_NTC None NTC None [1; 3] Examples.h_on Examples.h_off
           Examples.batch_NTC () 2 2).
  - reflexivity.
  - reflexivity.
  - lia.
  - split; [reflexivity|]. repeat constructor.
  - split; [reflexivity|]. repeat constructor.
  - reflexivity.
  - intros a. cbn. lia.
Defined.



(** * Further properties *)

(** ** The projection layer and the output classes *)

Section StringFacts.
Lemma append_underscore_inj (a b : string) : a +:+ "_" = b +:+ "_" → a = b.
Proof.
  revert b. induction a as [|c a IH]; intros [|c' b]; cbn; try done.
  - intros [= <- Hb]. by destruct b.
  - intros [= -> Ha]. by destruct a.
  - intros [= -> Hab]. f_equal. by apply IH.
Qed.

Lemma dense_prefix_inj (prefix : option string) (a b : string) :
  ArgProj.str prefix +:+ "_distr_" +:+ a +:+ "_"
  = ArgProj.str prefix +:+ "_distr_" +:+ b +:+ "_" →
  a = b.
Proof.
  intros Hab. apply (inj (String.append (ArgProj.str prefix))) in Hab.
  apply (inj (String.append "_distr_")) in Hab.
  by apply append_underscore_inj.
Qed.
End StringFacts.

Section MoreProjectionFacts.
Context `{Elt elt}.
Local Abbreviation mat := (mat elt).

(** X2.  For a class that gives its argument widths, [get_args_proj]
    builds a projection with one affine layer per width, of the dtype
    the object has at that moment, and calling the projection applies
    the object's own [domain_map] to the projected tensors. *)
Theorem get_args_proj_forward (init : ArgProj.initializer) (self : object elt)
    (prefix : option string) (dims : list (string * nat)) :
  args_dim (cls self) = Some dims →
  ∃ p,
    DistributionOutput.get_args_proj init self prefix = Ok p
    ∧ ArgProj.args_dim p = dims
    ∧ ArgProj.dtype p = Output.dtype self
    ∧ map ArgProj.units (ArgProj.proj p) = map snd dims
    ∧ Forall (λ d, ArgProj.dense_dtype d = Output.dtype self) (ArgProj.proj p)
    ∧ ∀ F x,
        ArgProj.hybrid_forward p F x
        = DistributionOutput.self_domain_map self ndarray
            (map (λ d, ArgProj.Dense_call d x) (ArgProj.proj p)).
Proof.
  intros Hd. unfold DistributionOutput.get_args_proj. rewrite Hd. cbn.
  eexists. split; [reflexivity|]. cbn. repeat split.
  - rewrite map_map. apply map_ext. by intros [name w].
  - apply Forall_forall. intros d Hd'.
    apply list_elem_of_fmap in Hd' as ([name w] & -> & _). done.
Qed.

(** X3.  [get_args_proj] raises [AttributeError] on a class that gives
    no argument widths.  On a class that gives the widths but no
    [domain_map], it returns a projection, and every call of that
    projection raises [NotImplementedError]. *)
Theorem get_args_proj_failures (init : ArgProj.initializer) (self : object elt)
    (prefix : option string) :
  domain_map_def (cls self) = None →
  (args_dim (cls self) = None →
   DistributionOutput.get_args_proj init self prefix = Raise AttributeError)
  ∧ (∀ dims, args_dim (cls self) = Some dims →
     ∃ p, DistributionOutput.get_args_proj init self prefix = Ok p
          ∧ ∀ F x, ArgProj.hybrid_forward p F x = Raise NotImplementedError).
Proof.
  intros Hdm. unfold DistributionOutput.get_args_proj. split.
  - by intros ->.
  - intros dims ->. cbn. eexists. split; [reflexivity|].
    intros F x. unfold ArgProj.hybrid_forward. cbn.
    unfold DistributionOutput.HybridLambda, DistributionOutput.self_domain_map.
    by rewrite Hdm.
Qed.

(** X4.  [distribution] returns exactly when the class has a
    distribution constructor and the constructor accepts the
    arguments; the result is then what the constructor built, wrapped
    once if [loc] or [scale] is given.  It raises [AttributeError]
    when the class has no constructor and the constructor's own
    exception otherwise, whatever [loc] and [scale] are. *)
Theorem distribution_inversion (self : object elt) (distr_args : list mat)
    (loc scale : option mat) :
  (∀ d,
     DistributionOutput.distribution self distr_args loc scale = Ok d
     ↔ ∃ c b, distr_cls (cls self) = Some c ∧ c distr_args = Ok b
         ∧ d = match loc, scale with
               | None, None => b
               | _, _ => AffineTransformedDistribution b loc scale
               end)
  ∧ (∀ e,
       DistributionOutput.distribution self distr_args loc scale = Raise e
       ↔ (distr_cls (cls self) = None ∧ e = AttributeError)
         ∨ ∃ c, distr_cls (cls self) = Some c ∧ c distr_args = Raise e).
Proof.
  unfold DistributionOutput.distribution.
  destruct (distr_cls (cls self)) as [c|]; cbn.
  - destruct (c distr_args) as [b|e0] eqn:Hc; split.
    + intros d. split.
      * intros Hd. exists c, b. repeat split; try done.
        destruct loc, scale; cbn in Hd; by injection Hd as <-.
      * intros (c' & b' & [= <-] & Hb & ->). rewrite Hc in Hb.
        injection Hb as <-. by destruct loc, scale.
    + intros e. split.
      * by destruct loc, scale.
      * intros [[? _]|(c' & [= <-] & Hc')]; [done|]. congruence.
    + intros d. split.
      * by destruct loc, scale.
      * intros (c' & b' & [= <-] & Hb & _). congruence.
    + intros e. split.
      * intros He. right. exists c. split; [done|].
        destruct loc, scale; cbn in He; congruence.
      * intros [[? _]|(c' & [= <-] & Hc')]; [done|].
        rewrite Hc in Hc'. injection Hc' as <-. by destruct loc, scale.
  - split.
    + intros d. split.
      * by destruct loc, scale.
      * by intros (c & b & ? & _).
    + intros e. split.
      * intros He. left. split; [done|].
        destruct loc, scale; cbn in He; congruence.
      * intros [[_ ->]|(c & ? & _)]; [|done]. by destruct loc, scale.
Qed.

(** X5.  [event_dim] raises exactly when [event_shape] raises, with the
    same exception; so on [DistributionOutput] itself it raises
    [NotImplementedError]. *)
Theorem event_dim_raises_iff (self : object elt) :
  (∀ e, DistributionOutput.event_dim self = Raise e
        ↔ DistributionOutput.event_shape self = Raise e)
  ∧ ∀ dt, DistributionOutput.event_dim
            (Output.dtype_setter
               (DistributionOutput.__init__ (abstract_base elt)) dt)
          = Raise NotImplementedError.
Proof.
  split; [|intros dt; reflexivity].
  intros e. unfold DistributionOutput.event_dim.
  destruct (DistributionOutput.event_shape self); cbn; split; congruence.
Qed.

(** X6.  The affine layers of a projection get pairwise distinct
    parameter prefixes when the argument names are pairwise distinct,
    as the keys of a dictionary are: no two layers share a
    parameter. *)
Theorem ArgProj_prefixes_distinct {R} (init : ArgProj.initializer)
    (dims : list (string * nat)) (dm : list mat → result R) (dt : DType)
    (prefix : option string) :
  NoDup (map fst dims) →
  NoDup (map ArgProj.dense_prefix
           (ArgProj.proj (ArgProj.__init__ init dims dm dt prefix))).
Proof.
  intros Hnd. cbn. rewrite map_map.
  assert (Heq : map (λ x : string * nat,
                       ArgProj.dense_prefix
                         (let '(name, dim) := x in
                          {| ArgProj.units := dim; ArgProj.flatten := false;
                             ArgProj.dense_dtype := dt;
                             ArgProj.dense_prefix :=
                               ArgProj.str prefix +:+ "_distr_" +:+ name +:+ "_";
                             ArgProj.weight :=
                               (init (ArgProj.str prefix +:+ "_distr_"
                                      +:+ name +:+ "_")).1;
                             ArgProj.bias :=
                               (init (ArgProj.str prefix +:+ "_distr_"
                                      +:+ name +:+ "_")).2 |})) dims
                = (λ name, ArgProj.str prefix +:+ "_distr_" +:+ name +:+ "_")
                    <$> (fst <$> dims)).
  { rewrite <- list_fmap_compose. apply map_ext. by intros [name w]. }
  rewrite Heq. apply NoDup_fmap_2; [|exact Hnd].
  intros a b. apply dense_prefix_inj.
Qed.
End MoreProjectionFacts.

Lemma get_args_proj_forward_witness :
  ∃ p,
    DistributionOutput.get_args_proj Examples.const_init
      (DistributionOutput.__init__ Examples.gaussian_like) (Some "net")
    = Ok p
    ∧ ArgProj.hybrid_forward p ndarray [[1; 2; 3]%Z]
      = Ok [[[6]]; [[6]]]%Z.
Proof.
  destruct (get_args_proj_forward Examples.const_init
              (DistributionOutput.__init__ Examples.gaussian_like) (Some "net")
              [("mu", 1); ("sigma", 1)] eq_refl)
    as (p & Hp & _ & _ & _ & _ & Hf).
  exists p. split; [exact Hp|].
  rewrite Hf. injection Hp as <-. reflexivity.
Defined.

Lemma get_args_proj_failures_witness :
  DistributionOutput.get_args_proj Examples.const_init
    (DistributionOutput.__init__ (abstract_base Z)) None
  = Raise AttributeError
  ∧ ∃ p,
      DistributionOutput.get_args_proj Examples.const_init
        (DistributionOutput.__init__ MoreExamples.widths_only) None = Ok p
      ∧ ∀ F x, ArgProj.hybrid_forward p F x = Raise NotImplementedError.
Proof.
  split.
  - exact (proj1 (get_args_proj_failures Examples.const_init
                    (DistributionOutput.__init__ (abstract_base Z)) None
                    eq_refl) eq_refl).
  - exact (proj2 (get_args_proj_failures Examples.const_init
                    (DistributionOutput.__init__ MoreExamples.widths_only) None
                    eq_refl) [("mu", 1); ("sigma", 1)] eq_refl).
Defined.

Lemma ArgProj_prefixes_distinct_witness :
  NoDup (map ArgProj.dense_prefix
           (ArgProj.proj
              (ArgProj.__init__ Examples.const_init [("mu", 1); ("sigma", 2)]
                 ArgProj.identity_map float32 (Some "net")))).
Proof.
  apply (ArgProj_prefixes_distinct Examples.const_init
           [("mu", 1); ("sigma", 2)] ArgProj.identity_map float32 (Some "net")).
  cbn. apply NoDup_cons. split; [|apply NoDup_singleton].
  intros Hin. apply list_elem_of_singleton in Hin. discriminate.
Defined.

(** ** The residual cell, further *)

Section MoreResidualFacts.
Context `{Elt elt}.
Local Abbreviation vec := (vec elt).
Local Abbreviation mat := (mat elt).
Local Abbreviation ten3 := (ten3 elt).
Local Abbreviation sequence := (sequence elt).
Context {Store St : Type}.
Implicit Types (reset : heap Store → heap Store).
Implicit Types (h : heap Store) (lay : layout) (vl : option (list nat)).

Lemma same_shape2_lengths (a b : mat) :
  same_shape2 a b = true ↔
  List.length a = List.length b
  ∧ ∀ i r s, a !! i = Some r → b !! i = Some s → List.length r = List.length s.
Proof.
  unfold same_shape2. rewrite andb_true_iff, same_len_true, forallb_forall.
  split; intros [Hl Hrows]; (split; [done|]).
  - intros i r s Hr Hs. apply same_len_true.
    apply (Hrows (r, s)), list_elem_of_In, list_elem_of_lookup.
    exists i. apply lookup_zip_with_Some. by exists r, s.
  - intros [r s] Hin.
    apply list_elem_of_In, list_elem_of_lookup in Hin as [i Hi].
    apply lookup_zip_with_Some in Hi as (x & y & [= <- <-] & Hx & Hy).
    apply same_len_true. cbn. by eapply Hrows.
Qed.

Lemma same_shape2_sum (a b : mat) :
  same_shape2 a b = true →
  same_shape2 (zip_with (zip_with add) a b) b = true.
Proof.
  rewrite !same_shape2_lengths. intros [Hl Hrows]. split.
  - rewrite length_zip_with. unfold mat, vec in *. lia.
  - intros i r s Hr Hs.
    apply lookup_zip_with_Some in Hr as (x & y & -> & Hx & Hy).
    unfold mat, vec in *. assert (y = s) as -> by congruence.
    rewrite length_zip_with, (Hrows i x s Hx Hs). lia.
Qed.

(** X7.  One step of the residual cell returns exactly when the inner
    cell returns an output of the shape of the input: the result is
    then their sum, of that same shape, with the inner cell's state.
    It raises the inner cell's exception when the inner cell raises,
    and the engine's shape error when the shapes differ.  In every
    case the heap is left as the inner cell left it. *)
Theorem hybrid_forward_inversion (base_cell : mat → St → M Store (mat * St))
    (F : engine) (inputs : mat) (states : St) h :
  (∀ h' out s',
     ResidualCell.hybrid_forward base_cell F inputs states h
     = (h', Ok (out, s'))
     ↔ ∃ output,
         base_cell inputs states h = (h', Ok (output, s'))
         ∧ same_shape2 output inputs = true
         ∧ out = zip_with (zip_with add) output inputs
         ∧ same_shape2 out inputs = true)
  ∧ (∀ h' e,
       ResidualCell.hybrid_forward base_cell F inputs states h = (h', Raise e)
       ↔ base_cell inputs states h = (h', Raise e)
         ∨ ∃ output s',
             base_cell inputs states h = (h', Ok (output, s'))
             ∧ same_shape2 output inputs = false
             ∧ e = ShapeError)
  ∧ (ResidualCell.hybrid_forward base_cell F inputs states h).1
    = (base_cell inputs states h).1.
Proof.
  rewrite hybrid_forward_eq.
  destruct (base_cell inputs states h) as [h1 [[output s1]|e1]].
  - unfold elemwise_add2.
    destruct (same_shape2 output inputs) eqn:Hshape; cbn.
    + split; [|split; [|done]].
      * intros h' out s'. split.
        -- intros [= <- <- <-]. exists output. repeat split; try done.
           by apply same_shape2_sum.
        -- by intros (o & [= <- <- <-] & _ & -> & _).
      * intros h' e. split; [done|].
        intros [?|(o & s' & [= <- <- <-] & ? & _)]; congruence.
    + split; [|split; [|done]].
      * intros h' out s'. split; [done|].
        intros (o & [= <- <- <-] & ? & _). congruence.
      * intros h' e. split.
        -- intros [= <- <-]. right. by exists output, s1.
        -- intros [?|(o & s' & [= <- <- <-] & _ & ->)]; [done|done].
  - split; [|split; [|done]].
    + intros h' out s'. split; [done|]. by intros (o & ? & _).
    + intros h' e. split.
      * intros [= <- <-]. by left.
      * intros [[= <- <-]|(o & s' & ? & _)]; done.
Qed.

Lemma normalized_inputs_unmasked lay (inputs : sequence) length (merge : bool)
    (N C : nat) :
  0 < length →
  seq_shape lay inputs length N C →
  ∃ inputs',
    ResidualCell.normalized_inputs length inputs lay merge None = Ok inputs'
    ∧ seq_shape lay inputs' length N C
    ∧ ∀ tm n, entry lay inputs' tm n = entry lay inputs tm n.
Proof.
  intros Hpos Hin. unfold ResidualCell.normalized_inputs, _format_sequence.
  destruct (to_convention_ok lay length inputs merge N C Hpos Hin)
    as (i & Hi & Hshape).
  rewrite Hi. cbn. exists i. split; [done|]. split; [done|].
  intros tm n. by rewrite (to_convention_entry lay _ _ _ _ Hi).
Qed.

(** X8.  Without valid lengths nothing is masked: every entry of what
    [unroll] returns is the inner cell's output at that step and
    sequence plus the input there, whichever of the two conventions
    the inputs came in.  Stated for an inner [unroll] that returns, in
    the convention asked for, outputs of the shape of the inputs. *)
Theorem unroll_unmasked_sum reset
    (bcu : nat → sequence → option St → layout → option bool →
           option (list nat) → M Store (sequence * St))
    length inputs begin_state lay merge_outputs h h2
    (outputs : sequence) (states : St) (N C : nat) :
  bcu length inputs begin_state lay merge_outputs None
    (ResidualCell.inner_heap reset h) = (h2, Ok (outputs, states)) →
  isinstance_tensor outputs = ResidualCell.merge_flag merge_outputs outputs →
  0 < length →
  seq_shape lay inputs length N C →
  seq_shape lay outputs length N C →
  ∃ combined,
    ResidualCell.unroll reset bcu length inputs begin_state lay merge_outputs
      None h
    = (ResidualCell.restored_heap h2, Ok (combined, states))
    ∧ ∀ tm n,
        entry lay combined tm n
        = x ← entry lay outputs tm n; y ← entry lay inputs tm n;
          Some (zip_with add x y).
Proof.
  intros Hbase Hconv Hpos Hin Hout.
  set (m := ResidualCell.merge_flag merge_outputs outputs) in *.
  destruct (normalized_inputs_unmasked lay inputs length m N C Hpos Hin)
    as (inputs' & Hnorm & Hshape & Hentry).
  pose proof (normalized_inputs_isinstance _ _ _ _ _ _ Hnorm) as Hconv'.
  destruct (combine_sum lay m outputs inputs' length N C Hout Hshape
              Hconv Hconv') as (combined & Hcomb & Hsum).
  exists combined. split.
  - rewrite unroll_eq, Hbase. fold m. rewrite Hnorm. cbn. by rewrite Hcomb.
  - intros tm n. by rewrite Hsum, Hentry.
Qed.

(** X9.  [unroll] returns only when the inner [unroll] returned: the
    states it returns are the inner cell's, untouched, the flag has
    been set back, and the outputs are the sum of the inner outputs
    and the normalized inputs, in the convention [merge_outputs] asks
    for or, when it is not given, in that of the inner outputs. *)
Theorem unroll_returns_inv reset
    (bcu : nat → sequence → option St → layout → option bool →
           option (list nat) → M Store (sequence * St))
    length inputs begin_state lay merge_outputs vl h h'
    (combined : sequence) (states : St) :
  ResidualCell.unroll reset bcu length inputs begin_state lay merge_outputs
    vl h = (h', Ok (combined, states)) →
  ∃ h2 outputs inputs',
    bcu length inputs begin_state lay merge_outputs vl
      (ResidualCell.inner_heap reset h) = (h2, Ok (outputs, states))
    ∧ h' = ResidualCell.restored_heap h2
    ∧ ResidualCell.normalized_inputs length inputs lay
        (ResidualCell.merge_flag merge_outputs outputs) vl = Ok inputs'
    ∧ ResidualCell.combine (ResidualCell.merge_flag merge_outputs outputs)
        outputs inputs' = Ok combined
    ∧ isinstance_tensor combined
      = ResidualCell.merge_flag merge_outputs outputs
    ∧ (∀ m, merge_outputs = Some m → isinstance_tensor combined = m).
Proof.
  rewrite unroll_eq.
  destruct (bcu _ _ _ _ _ _ _) as [h2 [[outputs s]|e]]; [|done].
  destruct (ResidualCell.normalized_inputs _ _ _ _ _) as [inputs'|e] eqn:Hn;
    [|done].
  cbn.
  destruct (ResidualCell.combine _ _ _) as [c|e] eqn:Hc; [|done].
  cbn. intros [= <- <- <-].
  exists h2, outputs, inputs'. repeat split; try done.
  - by eapply combine_isinstance.
  - intros m ->. by apply (combine_isinstance _ _ _ _ Hc).
Qed.

Lemma traverse_raises {A B} (f : A → result B) (e : exn) (l : list A) :
  Forall (λ x, (∃ y, f x = Ok y) ∨ f x = Raise e) l →
  Exists (λ x, f x = Raise e) l →
  traverse f l = Raise e.
Proof.
  induction 1 as [|x l Hx _ IH]; intros Hex.
  - by apply Exists_nil in Hex.
  - cbn. destruct Hx as [[y Hy]|Hr]; [|by rewrite Hr]. rewrite Hy. cbn.
    apply Exists_cons in Hex as [Hx|Hl]; [congruence|].
    by rewrite (IH Hl).
Qed.

(** X10.  Steps of different shapes are never added: when the inner
    [unroll] has returned and the inputs are normalized, [unroll]
    raises the engine's shape error, with the flag set back, if in the
    merged convention the two tensors differ in shape, or if in the
    list convention some pair of [zip (outputs, inputs)] does. *)
Theorem unroll_shape_mismatch_raises reset
    (bcu : nat → sequence → option St → layout → option bool →
           option (list nat) → M Store (sequence * St))
    length inputs begin_state lay merge_outputs vl h h2
    (outputs inputs' : sequence) (states : St) :
  bcu length inputs begin_state lay merge_outputs vl
    (ResidualCell.inner_heap reset h) = (h2, Ok (outputs, states)) →
  ResidualCell.normalized_inputs length inputs lay
    (ResidualCell.merge_flag merge_outputs outputs) vl = Ok inputs' →
  (ResidualCell.merge_flag merge_outputs outputs = true →
   ∀ o i, outputs = Tensor o → inputs' = Tensor i → same_shape3 o i = false →
   ResidualCell.unroll reset bcu length inputs begin_state lay merge_outputs
     vl h = (ResidualCell.restored_heap h2, Raise ShapeError))
  ∧ (ResidualCell.merge_flag merge_outputs outputs = false →
     Exists (λ p : mat * mat, same_shape2 p.1 p.2 = false)
       (zip (iter outputs) (iter inputs')) →
     ResidualCell.unroll reset bcu length inputs begin_state lay merge_outputs
       vl h = (ResidualCell.restored_heap h2, Raise ShapeError)).
Proof.
  intros Hbase Hnorm. rewrite unroll_eq, Hbase, Hnorm. cbn. split.
  - intros -> o i -> -> Hs. cbn. unfold elemwise_add3. by rewrite Hs.
  - intros -> Hex. unfold ResidualCell.combine.
    rewrite (traverse_raises _ ShapeError); [done| |].
    + apply Forall_forall. intros [x y] _. unfold elemwise_add2.
      destruct (same_shape2 x y); eauto.
    + eapply Exists_impl; [exact Hex|]. intros [x y] Hxy. cbn in *.
      unfold elemwise_add2. by rewrite Hxy.
Qed.


End MoreResidualFacts.

Lemma unroll_unmasked_sum_witness :
  ∃ combined,
    ResidualCell.unroll id Examples.echo_unroll 3 Examples.batch_NTC None NTC
      (Some true) None Examples.h_on
    = (ResidualCell.restored_heap Examples.h_off, Ok (combined, ()))
    ∧ ∀ tm n,
        entry NTC combined tm n
        = x ← entry NTC Examples.batch_NTC tm n;
          y ← entry NTC Examples.batch_NTC tm n;
          Some (zip_with add x y).
Proof.
  apply (unroll_unmasked_sum id Examples.echo_unroll 3 Examples.batch_NTC None
           NTC (Some true) Examples.h_on Examples.h_off Examples.batch_NTC ()
           2 2).
  - reflexivity.
  - reflexivity.
  - lia.
  - split; [reflexivity|]. repeat constructor.
  - split; [reflexivity|]. repeat constructor.
Defined.

Lemma unroll_returns_inv_witness :
  ∃ h2 outputs inputs',
    Examples.one_step_unroll 2 Examples.two_steps None TNC (Some false) None
      (ResidualCell.inner_heap id Examples.h_on) = (h2, Ok (outputs, ()))
    ∧ Examples.h_on = ResidualCell.restored_heap h2
    ∧ ResidualCell.normalized_inputs 2 Examples.two_steps TNC
        (ResidualCell.merge_flag (Some false) outputs) None = Ok inputs'
    ∧ ResidualCell.combine (ResidualCell.merge_flag (Some false) outputs)
        outputs inputs' = Ok (Steps [[[11]; [22]]]%Z)
    ∧ isinstance_tensor (Steps [[[11]; [22]]]%Z)
      = ResidualCell.merge_flag (Some false) outputs
    ∧ (∀ m, Some false = Some m →
            isinstance_tensor (Steps [[[11]; [22]]]%Z) = m).
Proof.
  apply (unroll_returns_inv id Examples.one_step_unroll 2 Examples.two_steps
           None TNC (Some false) None Examples.h_on Examples.h_on
           (Steps [[[11]; [22]]]%Z) ()).
  reflexivity.
Defined.

Lemma unroll_shape_mismatch_raises_witness :
  ResidualCell.unroll id Examples.ones_unroll 2
    (Tensor [[[5]]; [[6]]]%Z) None TNC None None Examples.h_on
  = (ResidualCell.restored_heap Examples.h_off, Raise ShapeError).
Proof.
  refine (proj1 (unroll_shape_mismatch_raises id Examples.ones_unroll 2
                   (Tensor [[[5]]; [[6]]]%Z) None TNC None None Examples.h_on
                   Examples.h_off (Tensor [[[1]]; [[1]]; [[1]]]%Z)
                   (Tensor [[[5]]; [[6]]]%Z) () _ _)
            _ [[[1]]; [[1]]; [[1]]]%Z [[[5]]; [[6]]]%Z _ _ _);
    reflexivity.
Defined.


Lemma hybrid_forward_inversion_witness :
  ResidualCell.hybrid_forward MoreExamples.doubling_cell ndarray
    [[1; 2]]%Z 0 Examples.h_on
  = (Examples.h_on, Ok ([[3; 6]]%Z, 1)).
Proof.
  apply (proj1 (hybrid_forward_inversion MoreExamples.doubling_cell ndarray
                  [[1; 2]]%Z 0 Examples.h_on)).
  exists [[2; 4]]%Z. repeat split; reflexivity.
Defined.

Lemma distribution_inversion_witness :
  DistributionOutput.distribution
    (DistributionOutput.__init__ MoreExamples.refusing) [[[1]]]%Z
    (Some [[2]]%Z) None
  = Raise TypeError.
Proof.
  apply (proj2 (distribution_inversion
                  (DistributionOutput.__init__ MoreExamples.refusing)
                  [[[1]]]%Z (Some [[2]]%Z) None)).
  right. eexists. split; reflexivity.
Defined.

Lemma event_dim_raises_iff_witness :
  DistributionOutput.event_dim
    (DistributionOutput.__init__ MoreExamples.widths_only)
  = Raise NotImplementedError.
Proof.
  apply (proj1 (event_dim_raises_iff
                  (DistributionOutput.__init__ MoreExamples.widths_only))).
  reflexivity.
Defined.
